(** * qccodec: the Orca parsers (src/qccodec/parsers/orca.py)

    A shallow embedding of [iter_files] and [parse_energy] together with
    the parts of the Python runtime they rely on: [str] values, the
    Unicode decimal digits recognised by [\d] and [float], the backtracking
    search of the [re] module for the operators the energy pattern uses,
    and generators as resumable state machines. *)

From Stdlib Require Import String Ascii Bool Arith ZArith NArith Lia List.
From Stdlib Require Import Floats.SpecFloat.
Import ListNotations.

Set Implicit Arguments.

(** ** Python values *)

Module Py.

(** A [str] is a sequence of Unicode code points. *)
Definition char := N.
Definition str := list char.

(** A character and a literal written in the source. *)
Definition chr (a : ascii) : char := N_of_ascii a.

Definition lit (s : string) : str :=
  List.map chr (list_ascii_of_string s).

(** The exceptions that the module raises or lets through. *)
Inductive exn :=
| ParserError (msg : str)
| MatchNotFoundError
| ValueError
| TypeError
| OSError (errno : N).

(** A call either returns a value or raises. *)
Inductive result (A : Type) :=
| Return (a : A)
| Raise (e : exn).
Arguments Return {A} a.
Arguments Raise {A} e.

Definition bind {A B} (r : result A) (f : A -> result B) : result B :=
  match r with
  | Return a => f a
  | Raise e => Raise e
  end.

(** Code points of the digit zero of every run of ten decimal digits
    (general category Nd) in the Unicode Character Database 14.0.0, the
    one shipped with CPython 3.11.  Every Nd character belongs to such a
    run and has the value given by its offset in it. *)
Definition decimal_zeros : list N :=
  [48; 1632; 1776; 1984; 2406; 2534; 2662; 2790; 2918; 3046; 3174; 3302;
   3430; 3558; 3664; 3792; 3872; 4160; 4240; 6112; 6160; 6470; 6608; 6784;
   6800; 6992; 7088; 7232; 7248; 42528; 43216; 43264; 43472; 43504; 43600;
   44016; 65296; 66720; 68912; 69734; 69872; 69942; 70096; 70384; 70736;
   70864; 71248; 71360; 71472; 71904; 72016; 72784; 73040; 73120; 92768;
   92864; 93008; 120782; 120792; 120802; 120812; 120822; 123200; 123632;
   125264; 130032]%N.

(** [Py_UNICODE_TODECIMAL]: the decimal value of a code point, if any. *)
Fixpoint decimal_in (zeros : list N) (c : char) : option N :=
  match zeros with
  | [] => None
  | z :: zeros' =>
      if ((z <=? c) && (c <? z + 10))%N then Some (c - z)%N
      else decimal_in zeros' c
  end.

Definition decimal (c : char) : option N := decimal_in decimal_zeros c.

(** [Py_UNICODE_ISDECIMAL], the test behind [\d] on a [str] pattern. *)
Definition isdecimal (c : char) : bool :=
  match decimal c with Some _ => true | None => false end.

(** The longest prefix of decimal digits, and what follows it. *)
Fixpoint span_decimal (s : str) : str * str :=
  match s with
  | c :: s' =>
      if isdecimal c
      then let (ds, rest) := span_decimal s' in (c :: ds, rest)
      else ([], s)
  | [] => ([], [])
  end.

Definition starts_decimal (s : str) : bool :=
  match s with
  | c :: _ => isdecimal c
  | [] => false
  end.

(** The integer written by a run of decimal digits. *)
Fixpoint int_digits (acc : N) (ds : str) : N :=
  match ds with
  | [] => acc
  | c :: ds' =>
      int_digits (10 * acc + match decimal c with Some v => v | None => 0 end)%N ds'
  end.

(** A Python float is an IEEE 754 binary64 number. *)
Definition prec : Z := 53.
Definition emax : Z := 1024.

Fixpoint pow10 (k : nat) : positive :=
  match k with
  | O => 1
  | S k' => 10 * pow10 k'
  end.

(** The binary64 number nearest to [(-1)^neg * n / 10^k], ties to even,
    as the correctly rounded conversion of CPython ([_Py_dg_strtod])
    returns it; a value too large becomes an infinity and a value too
    small a zero.  Computed as the IEEE quotient of the two integers. *)
Definition float_of_decimal (neg : bool) (n : N) (k : nat) : spec_float :=
  match n with
  | N0 => S754_zero neg
  | Npos p =>
      SFdiv prec emax (S754_finite neg p 0) (S754_finite false (pow10 k) 0)
  end.

(** The conversion of CPython refuses a literal of too many digits
    ([MAX_DIGITS] of [dtoa.c]): it counts in [ndigits] the digits of the
    literal but for its leading zeros, those of the integer part and,
    when the integer part holds nothing else, those of the fraction too,
    and in [fraclen] the digits of the fraction; a count above
    [MAX_DIGITS] is a parse error. *)
Definition MAX_DIGITS : N := 1000000000.

Definition is_zero (c : char) : bool :=
  match decimal c with
  | Some 0%N => true
  | _ => false
  end.

Fixpoint skip_zeros (ds : str) : str :=
  match ds with
  | c :: ds' => if is_zero c then skip_zeros ds' else ds
  | [] => []
  end.

Definition ndigits (ip fp : str) : nat :=
  match skip_zeros ip with
  | [] => length (skip_zeros fp)
  | c :: ip' => length (c :: ip') + length fp
  end.

Definition too_long (ip fp : str) : bool :=
  (MAX_DIGITS <? N.of_nat (ndigits ip fp))%N
  || (MAX_DIGITS <? N.of_nat (length fp))%N.

(** [float(s)] for a [str] holding a decimal literal, an optional minus
    sign, digits and an optional fraction of a point and digits:
    the digits are read by their decimal values and the number is
    rounded to binary64, unless the literal is too long.  This is the
    only shape [parse_energy] passes (see [float_group]).  The other
    forms that CPython converts (exponents, inf and nan, underscores,
    surrounding blanks, a plus sign, a missing integer or fraction part)
    are outside this model: they fall, with the strings CPython rejects,
    under [ValueError].  [float_digits] reads what follows the sign. *)
Definition float_digits (neg : bool) (s : str) : result spec_float :=
  let (ip, s2) := span_decimal s in
  match ip, s2 with
  | [], _ => Raise ValueError
  | _ :: _, [] =>
      if too_long ip [] then Raise ValueError
      else Return (float_of_decimal neg (int_digits 0 ip) 0)
  | _ :: _, c :: s3 =>
      if (c =? chr "."%char)%N then
        let (fp, s4) := span_decimal s3 in
        match fp, s4 with
        | _ :: _, [] =>
            if too_long ip fp then Raise ValueError
            else Return (float_of_decimal neg (int_digits 0 (ip ++ fp))
                                          (length fp))
        | _, _ => Raise ValueError
        end
      else Raise ValueError
  end.

Definition float (s : str) : result spec_float :=
  match s with
  | c :: s' =>
      if (c =? chr "-"%char)%N then float_digits true s'
      else float_digits false s
  | [] => Raise ValueError
  end.

End Py.

(** ** The [re] module: patterns and backtracking search *)

Module Re.
Import Py.

(** The operators that occur in the pattern of [parse_energy].  A
    non-capturing group [(?:r)] only brackets [r] and needs no
    constructor. *)
Inductive re :=
| Eps                       (* the empty pattern *)
| Chr (c : char)            (* one literal character *)
| Digit                     (* \d *)
| Seq (r1 r2 : re)          (* r1 followed by r2 *)
| Opt (r : re)              (* r? , greedy *)
| Plus (r : re)             (* r+ , greedy *)
| Group (n : nat) (r : re). (* ( r ), capturing group number n *)

(** A run of literal characters. *)
Fixpoint str_re (l : str) : re :=
  match l with
  | [] => Eps
  | c :: l' => Seq (Chr c) (str_re l')
  end.

(** The text captured so far by each group, latest first. *)
Definition captures := list (nat * str).

Fixpoint lookup (n : nat) (caps : captures) : option str :=
  match caps with
  | [] => None
  | (i, t) :: caps' => if Nat.eqb i n then Some t else lookup n caps'
  end.

Section Matcher.
Variable A : Type.

(** The continuation of a match: what remains of the subject and the
    captures; [None] makes the engine backtrack. *)
Definition cont := str -> captures -> option A.

(** [rmatch r s caps k] matches [r] at the head of [s] and hands the
    rest to [k], trying the alternatives in the order of the engine:
    a greedy operator first takes its operand and gives it back only
    when everything after it fails.  A repetition goes round again
    only after a round that consumed input, so [length s] rounds
    are all there can be. *)
Fixpoint rmatch (r : re) (s : str) (caps : captures) (k : cont)
  {struct r} : option A :=
  match r with
  | Eps => k s caps
  | Chr c =>
      match s with
      | x :: s' => if (x =? c)%N then k s' caps else None
      | [] => None
      end
  | Digit =>
      match s with
      | x :: s' => if isdecimal x then k s' caps else None
      | [] => None
      end
  | Seq r1 r2 => rmatch r1 s caps (fun s1 caps1 => rmatch r2 s1 caps1 k)
  | Opt r1 =>
      match rmatch r1 s caps k with
      | Some a => Some a
      | None => k s caps
      end
  | Plus r1 =>
      rmatch r1 s caps (fun s1 caps1 =>
        (fix more (fuel : nat) (s : str) (caps : captures) {struct fuel}
           : option A :=
           match fuel with
           | O => k s caps
           | S fuel' =>
               match rmatch r1 s caps (fun s' caps' =>
                       if length s' <? length s
                       then more fuel' s' caps' else None) with
               | Some a => Some a
               | None => k s caps
               end
           end) (length s1) s1 caps1)
  | Group n r1 =>
      rmatch r1 s caps (fun s' caps' =>
        k s' ((n, firstn (length s - length s') s) :: caps'))
  end.

(** The further rounds of a repetition, as [rmatch] runs them. *)
Definition more (r1 : re) (k : cont) : nat -> str -> captures -> option A :=
  fix more (fuel : nat) (s : str) (caps : captures) {struct fuel}
    : option A :=
    match fuel with
    | O => k s caps
    | S fuel' =>
        match rmatch r1 s caps (fun s' caps' =>
                if length s' <? length s
                then more fuel' s' caps' else None) with
        | Some a => Some a
        | None => k s caps
        end
    end.

End Matcher.

(** A match object: where the match starts, the text of group 0 and
    the texts of the numbered groups. *)
Record Match := { start : nat; text : str; groups : captures }.

(** [m.group(n)]; [None] for a group that took no part in the match. *)
Definition group (m : Match) (n : nat) : option str :=
  match n with
  | O => Some (text m)
  | S _ => lookup n (groups m)
  end.

(** One attempt at the head of [s]: what is left of [s] after the
    match, and the captures. *)
Definition match_here (r : re) (s : str) : option (str * captures) :=
  rmatch r s [] (fun s' caps => Some (s', caps)).

(** The attempt at the position [pos] where [s] begins. *)
Definition match_at (r : re) (pos : nat) (s : str) : option Match :=
  match match_here r s with
  | Some (s', caps) =>
      Some {| start := pos;
              text := firstn (length s - length s') s;
              groups := caps |}
  | None => None
  end.

(** [re.search]: the attempts go from left to right, from every
    position up to the end of the subject; the first that matches wins. *)
Fixpoint search_from (r : re) (pos : nat) (s : str) : option Match :=
  match match_at r pos s with
  | Some m => Some m
  | None =>
      match s with
      | [] => None
      | _ :: s' => search_from r (S pos) s'
      end
  end.

Definition search (r : re) (s : str) : option Match := search_from r 0 s.

(** The language of a pattern, by the book.  An empty round adds nothing
    to a repetition, so the rounds before the last are taken non-empty. *)
Inductive matches : re -> str -> Prop :=
| M_Eps : matches Eps []
| M_Chr c : matches (Chr c) [c]
| M_Digit c : isdecimal c = true -> matches Digit [c]
| M_Seq r1 r2 m1 m2 :
    matches r1 m1 -> matches r2 m2 -> matches (Seq r1 r2) (m1 ++ m2)
| M_OptSome r m : matches r m -> matches (Opt r) m
| M_OptNone r : matches (Opt r) []
| M_PlusOne r m : matches r m -> matches (Plus r) m
| M_PlusMore r m1 m2 :
    matches r m1 -> m1 <> [] -> matches (Plus r) m2 ->
    matches (Plus r) (m1 ++ m2)
| M_Group n r m : matches r m -> matches (Group n r) m.

(** The pattern occurs somewhere in the subject. *)
Definition occurs (r : re) (s : str) : Prop :=
  exists pre m post, s = pre ++ m ++ post /\ matches r m.

End Re.

(** ** qccodec.parsers.orca *)

Module Orca.
Import Py Re.

(** [class OrcaFileType(str, Enum)]. *)
Inductive OrcaFileType := STDOUT | DIRECTORY.

Definition value (t : OrcaFileType) : str :=
  match t with
  | STDOUT => lit "stdout"
  | DIRECTORY => lit "directory"
  end.

(** What a path names in the file system. *)
Inductive entry :=
| Dir       (* a directory *)
| Other.    (* a regular file or anything else that is not a directory *)

(** What [os.stat] gives for a path. *)
Inductive status :=
| Mode (e : entry)    (* it returns, and the mode says what the path names *)
| Errno (errno : N)   (* it raises [OSError] with this [errno] *)
| Unencodable.        (* it raises [ValueError]: the path cannot be encoded *)

(** [_IGNORED_ERRNOS] of pathlib: ENOENT, ENOTDIR, EBADF and ELOOP, by
    their numbers on Linux. *)
Definition ENOENT : N := 2.
Definition ENOTDIR : N := 20.
Definition EBADF : N := 9.
Definition ELOOP : N := 40.

Definition _IGNORED_ERRNOS : list N := [ENOENT; ENOTDIR; EBADF; ELOOP].

Definition _ignore_error (errno : N) : bool :=
  existsb (N.eqb errno) _IGNORED_ERRNOS.

Section Files.
(** [pathlib.Path], with the conversions that [iter_files] uses:
    [Path(s)] for a [str] and [str(p)] inside the f-string. *)
Variable Path : Type.
Variable Path_of_str : str -> Path.
Variable str_of_Path : Path -> str.

(** The file system as [Path.stat()] finds it: what the call gives for
    each path. *)
Definition filesystem := Path -> status.

(** [Path.exists()] and [Path.is_dir()] of pathlib (CPython 3.11): both
    call [stat()], take an [OSError] that [_ignore_error] accepts and a
    [ValueError] for a negative answer, and let any other [OSError]
    through. *)
Definition exists_ (fs : filesystem) (p : Path) : result bool :=
  match fs p with
  | Mode _ => Return true
  | Errno errno =>
      if _ignore_error errno then Return false else Raise (OSError errno)
  | Unencodable => Return false
  end.

Definition is_dir (fs : filesystem) (p : Path) : result bool :=
  match fs p with
  | Mode Dir => Return true
  | Mode Other => Return false
  | Errno errno =>
      if _ignore_error errno then Return false else Raise (OSError errno)
  | Unencodable => Return false
  end.

(** [not directory.exists() or not directory.is_dir()]: the second test
    runs only when the first says that the path exists. *)
Definition rejected (fs : filesystem) (directory : Path) : result bool :=
  bind (exists_ fs directory) (fun e =>
    if negb e then Return true
    else bind (is_dir fs directory) (fun d => Return (negb d))).

(** The statuses that make a path one that does not exist or is not a
    directory: [stat()] finds something else than a directory, or fails
    in one of the ways taken for absence. *)
Definition no_directory (st : status) : bool :=
  match st with
  | Mode Dir => false
  | Mode Other => true
  | Errno errno => _ignore_error errno
  | Unencodable => true
  end.

(** [Union[Path, str]], the type of the [directory] argument. *)
Inductive pathlike :=
| AsPath (p : Path)
| AsStr (s : str).

(** [Path(directory)]. *)
Definition to_Path (directory : pathlike) : Path :=
  match directory with
  | AsPath p => p
  | AsStr s => Path_of_str s
  end.

(** [Union[str, bytes, Path]], the contents paired with a file type. *)
Inductive contents :=
| Text (s : str)
| Bytes (b : list N)
| Location (p : Path).

Definition artifact : Type := OrcaFileType * contents.

(** The generator made by a call of [iter_files] is resumed by [next]
    from the place where it is suspended. *)
Inductive generator :=
| Created (stdout : option str) (directory : option pathlike)
| AtYield50 (directory : option pathlike)  (* after [yield STDOUT, stdout] *)
| AtYield59                                (* after [yield DIRECTORY, directory] *)
| Closed.                                  (* returned or raised *)

(** What one [next] gives its caller. *)
Inductive event :=
| Yield (a : artifact)
| StopIteration
| Raises (e : exn).

Definition iter_files (stdout : option str) (directory : option pathlike)
  : generator :=
  Created stdout directory.

(** Lines 52 to 59, run against the file system as it is when the
    generator is resumed. *)
Definition directory_block (fs : filesystem) (directory : option pathlike)
  : event * generator :=
  match directory with
  | Some d =>
      let directory := to_Path d in
      match rejected fs directory with
      | Return true =>
          (Raises (ParserError
                     (lit "Directory " ++ str_of_Path directory
                        ++ lit " does not exist or is not a directory.")),
           Closed)
      | Return false => (Yield (DIRECTORY, Location directory), AtYield59)
      | Raise e => (Raises e, Closed)
      end
  | None => (StopIteration, Closed)
  end.

Definition next (fs : filesystem) (g : generator) : event * generator :=
  match g with
  | Created stdout directory =>
      match stdout with
      | Some s => (Yield (STDOUT, Text s), AtYield50 directory)
      | None => directory_block fs directory
      end
  | AtYield50 directory => directory_block fs directory
  | AtYield59 => (StopIteration, Closed)
  | Closed => (StopIteration, Closed)
  end.

(** A loop over the generator, as [for ... in iter_files(...)] or
    [list(iter_files(...))] run it, with the file system unchanged
    during the loop: the artifacts received and the exception that
    ended the loop, if one did.  [None] when [fuel] calls of [next]
    did not finish it. *)
Fixpoint drain (fuel : nat) (fs : filesystem) (g : generator)
  : option (list artifact * option exn) :=
  match fuel with
  | O => None
  | S fuel' =>
      match next fs g with
      | (Yield a, g') =>
          match drain fuel' fs g' with
          | Some (l, e) => Some (a :: l, e)
          | None => None
          end
      | (StopIteration, _) => Some ([], None)
      | (Raises e, _) => Some ([], Some e)
      end
  end.

(** The artifacts of one file type. *)
Definition of_type (t : OrcaFileType) (l : list artifact) : list artifact :=
  filter (fun a : artifact =>
            match fst a, t with
            | STDOUT, STDOUT | DIRECTORY, DIRECTORY => true
            | _, _ => false
            end) l.

(** The message of the [ParserError] for the path [p]. *)
Definition not_a_directory (p : Path) : exn :=
  ParserError (lit "Directory " ++ str_of_Path p
                 ++ lit " does not exist or is not a directory.").

End Files.

Arguments AsStr {Path} s.
Arguments Text {Path} s.
Arguments Bytes {Path} b.
Arguments Created {Path} stdout directory.
Arguments AtYield59 {Path}.
Arguments Closed {Path}.
Arguments StopIteration {Path}.
Arguments Raises {Path} e.

(** The pattern [FINAL ENERGY: (-?\d+(?:\.\d+)?)] of [parse_energy];
    [number] is what its group 1 holds. *)
Definition number : re :=
  Seq (Opt (Chr (chr "-"%char)))
      (Seq (Plus Digit)
           (Opt (Seq (Chr (chr "."%char)) (Plus Digit)))).

Definition regex : re :=
  Seq (str_re (lit "FINAL ENERGY: ")) (Group 1 number).

(** Modelled from the spec: [re_search] of [qccodec.parsers.utils],
    which is imported here and whose source is missing.  It is the
    find-or-fail search of the spec: the match of [re.search] (the
    docstring of [parse_energy] names it) when there is one, the
    pattern-absent failure [MatchNotFoundError] when there is none. *)
Definition re_search (regex : re) (string : str) : result Match :=
  match search regex string with
  | Some m => Return m
  | None => Raise MatchNotFoundError
  end.

(** [float(re_search(regex, contents).group(1))].  The decorator
    [register] records the function for the file type [STDOUT] and the
    target [energy]; the function itself is what is modelled. *)
Definition parse_energy (contents : str) : result spec_float :=
  bind (re_search regex contents) (fun m =>
    match group m 1 with
    | Some t => float t
    | None => Raise TypeError
    end).

End Orca.

(** ** The shape of a number of the energy pattern *)

Module Shape.
Import Py.

(** The parts of a decimal literal: an optional minus sign, one digit
    or more, and an optional fraction of a point and one digit or more. *)
Definition sign (sg : str) : Prop := sg = [] \/ sg = [chr "-"%char].

Definition digits (ds : str) : Prop :=
  ds <> [] /\ forallb isdecimal ds = true.

Definition fraction (fr : str) : Prop :=
  fr = [] \/ exists fp, fr = chr "."%char :: fp /\ digits fp.

(** A point with a digit behind it. *)
Definition starts_fraction (s : str) : bool :=
  match s with
  | c :: s' => (c =? chr "."%char)%N && starts_decimal s'
  | [] => false
  end.

(** The text [rest] behind a literal whose fraction is [fr] would make
    the literal longer: it begins with a digit or, when the literal has
    no fraction yet, with a fraction. *)
Definition continues (fr rest : str) : bool :=
  starts_decimal rest
  || (match fr with [] => true | _ :: _ => false end && starts_fraction rest).

(** The number a literal of these parts writes, as a binary64. *)
Definition literal_value (sg ip fr : str) : spec_float :=
  float_of_decimal (match sg with [] => false | _ :: _ => true end)
                   (int_digits 0 (ip ++ tl fr)) (length (tl fr)).

(** What [float] makes of a literal of these parts. *)
Definition literal_result (sg ip fr : str) : result spec_float :=
  if too_long ip (tl fr) then Raise ValueError
  else Return (literal_value sg ip fr).

End Shape.

(** ** A small file system to run the iterator on *)

Module Sample.
Import Py Orca.

Fixpoint eqb_str (a b : str) : bool :=
  match a, b with
  | [], [] => true
  | x :: a', y :: b' => (x =? y)%N && eqb_str a' b'
  | _, _ => false
  end.

(** Paths are taken by their text. *)
Definition Path : Type := str.
Definition Path_of_str (s : str) : Path := s.
Definition str_of_Path (p : Path) : str := p.

(** A directory [calc] that holds the files [calc/orca.out] and
    [calc/notes.txt], and nothing else. *)
Definition disk : filesystem Path :=
  fun p =>
    if eqb_str p (lit "calc") then Mode Dir
    else if eqb_str p (lit "calc/orca.out") then Mode Other
    else if eqb_str p (lit "calc/notes.txt") then Mode Other
    else Errno ENOENT.

(** The same directory, empty. *)
Definition bare_disk : filesystem Path :=
  fun p => if eqb_str p (lit "calc") then Mode Dir else Errno ENOENT.

(** Nothing at all. *)
Definition blank_disk : filesystem Path := fun _ => Errno ENOENT.

(** The directory [calc] again, with a directory [vault/calc] whose
    parent may not be searched (EACCES, 13), and a limit on the length
    of a name that a name of 300 letters exceeds (ENAMETOOLONG, 36). *)
Definition EACCES : N := 13.
Definition ENAMETOOLONG : N := 36.

Definition guarded_disk : filesystem Path :=
  fun p =>
    if eqb_str p (lit "calc") then Mode Dir
    else if eqb_str p (lit "vault/calc") then Errno EACCES
    else if eqb_str p (repeat (chr "a"%char) 300) then Errno ENAMETOOLONG
    else Errno ENOENT.

(** [q] lies inside the directory [d]: its text is that of [d], a slash
    and more. *)
Fixpoint starts_with (d q : str) : option str :=
  match d, q with
  | [], _ => Some q
  | x :: d', y :: q' => if (x =? y)%N then starts_with d' q' else None
  | _ :: _, [] => None
  end.

Definition inside (d q : Path) : bool :=
  match starts_with d q with
  | Some (c :: _ :: _) => (c =? chr "/"%char)%N
  | _ => false
  end.

Definition next := Orca.next Path_of_str str_of_Path.
Definition drain := Orca.drain Path_of_str str_of_Path.

End Sample.

(** ** Readings of the results *)

Module Further.
Import Py Orca.

(** The ASCII digit of the same value, for a decimal digit of any
    script; any other character is left as it is. *)
Definition ascii_digit (c : char) : char :=
  match decimal c with
  | Some v => (chr "0"%char + v)%N
  | None => c
  end.

(** The sign bit of a float, which [math.copysign] reads. *)
Definition signbit (x : spec_float) : bool :=
  match x with
  | S754_zero s | S754_infinity s | S754_finite s _ _ => s
  | S754_nan => false
  end.

Section Resumptions.
Variable Path : Type.
Variable Path_of_str : str -> Path.
Variable str_of_Path : Path -> str.

(** What successive calls of [next] give, each call running against the
    file system as it is at that time. *)
Fixpoint events (fss : list (filesystem Path)) (g : generator Path)
  : list (event Path) :=
  match fss with
  | [] => []
  | fs :: fss' =>
      let (e, g') := next Path_of_str str_of_Path fs g in
      e :: events fss' g'
  end.

End Resumptions.

End Further.

(** * Properties *)

Import Py Re Orca Shape Further.

(** ** The model at work

    Values that CPython 3.11 gives for the same inputs. *)

Example float_one_tenth :
  float (lit "0.1") = Return (S754_finite false 7205759403792794 (-56)).
Proof. reflexivity. Qed.

Example float_ties_to_even :
  float (lit "9007199254740993")
  = Return (S754_finite false 4503599627370496 1).
Proof. reflexivity. Qed.

Example float_minus_zero : float (lit "-0.0") = Return (S754_zero true).
Proof. reflexivity. Qed.

Example float_overflow :
  float (chr "1"%char :: repeat (chr "0"%char) 400)
  = Return (S754_infinity false).
Proof. vm_compute. reflexivity. Qed.

(** U+0661 and U+0665 are the Arabic-Indic digits one and five. *)
Example float_arabic_indic :
  float [chr "-"%char; 1633%N; chr "."%char; 1637%N]
  = Return (S754_finite true 6755399441055744 (-52)).
Proof. reflexivity. Qed.

Example search_energy :
  search regex (lit "ab FINAL ENERGY: -12.50x")
  = Some {| start := 3;
            text := lit "FINAL ENERGY: -12.50";
            groups := [(1, lit "-12.50")] |}.
Proof. reflexivity. Qed.

Example search_second_point :
  option_map (fun m => group m 1) (search regex (lit "FINAL ENERGY: 1.2.3"))
  = Some (Some (lit "1.2")).
Proof. reflexivity. Qed.

(** A greedy repetition gives back what the rest of the pattern needs. *)
Example search_gives_back :
  search (Seq (Plus Digit) (Chr (chr "1"%char))) (lit "a1211")
  = Some {| start := 1; text := lit "1211"; groups := [] |}.
Proof. reflexivity. Qed.

(** ** The matcher against the language of a pattern *)

Section MatcherFacts.
Variable A : Type.
Implicit Types (r : re) (s m : str) (caps : captures) (k : cont A).

Lemma rmatch_Plus r s caps k :
  rmatch (Plus r) s caps k =
  rmatch r s caps (fun s1 caps1 => more r k (length s1) s1 caps1).
Proof. reflexivity. Qed.

Lemma more_S r k fuel s caps :
  more r k (S fuel) s caps =
  match rmatch r s caps (fun s' caps' =>
          if length s' <? length s then more r k fuel s' caps' else None) with
  | Some a => Some a
  | None => k s caps
  end.
Proof. reflexivity. Qed.

(** A repetition can always stop where it stands. *)
Lemma more_stop r k fuel s caps :
  k s caps <> None -> more r k fuel s caps <> None.
Proof.
  intros Hk. destruct fuel as [|fuel]; [exact Hk|].
  rewrite more_S. destruct (rmatch r s caps _); [discriminate | exact Hk].
Qed.

(** Whatever the matcher hands to its continuation lies behind a word
    of the pattern's language. *)
Lemma rmatch_sound r : forall s caps k a,
  rmatch r s caps k = Some a ->
  exists m s' caps', s = m ++ s' /\ matches r m /\ k s' caps' = Some a.
Proof.
  induction r as [|c| |r1 IH1 r2 IH2|r1 IH1|r1 IH1|n r1 IH1];
    intros s caps k a H.
  - exists [], s, caps. repeat split; [constructor | exact H].
  - simpl in H. destruct s as [|x s]; [discriminate|].
    destruct (N.eqb_spec x c) as [->|]; [|discriminate].
    exists [c], s, caps. repeat split; [constructor | exact H].
  - simpl in H. destruct s as [|x s]; [discriminate|].
    destruct (isdecimal x) eqn:Hx; [|discriminate].
    exists [x], s, caps. repeat split; [now constructor | exact H].
  - simpl in H.
    apply IH1 in H as (m1 & s1 & c1 & -> & M1 & H).
    apply IH2 in H as (m2 & s2 & c2 & -> & M2 & H).
    exists (m1 ++ m2), s2, c2. rewrite app_assoc.
    repeat split; [now constructor | exact H].
  - simpl in H. destruct (rmatch r1 s caps k) eqn:E.
    + injection H as ->. apply IH1 in E as (m & s' & c' & -> & M & E).
      exists m, s', c'. repeat split; [now apply M_OptSome | exact E].
    + exists [], s, caps. repeat split; [apply M_OptNone | exact H].
  - assert (Hmore : forall fuel s caps,
               more r1 k fuel s caps = Some a ->
               exists m s' caps',
                 s = m ++ s' /\ (m = [] \/ matches (Plus r1) m)
                 /\ k s' caps' = Some a).
    { induction fuel as [|fuel IHf]; intros t ct Ht.
      - exists [], t, ct. repeat split; [now left | exact Ht].
      - rewrite more_S in Ht.
        destruct (rmatch r1 t ct _) eqn:E.
        + injection Ht as ->.
          apply IH1 in E as (m & s' & c' & -> & M & E).
          destruct (Nat.ltb_spec (length s') (length (m ++ s')))
            as [Hlt|]; [|discriminate].
          assert (Hm : m <> []).
          { intros ->. simpl in Hlt. lia. }
          apply IHf in E as (m2 & s2 & c2 & -> & Hm2 & E).
          exists (m ++ m2), s2, c2. rewrite app_assoc.
          repeat split; [right | exact E].
          destruct Hm2 as [->|M2].
          * rewrite app_nil_r. now apply M_PlusOne.
          * now apply M_PlusMore.
        + exists [], t, ct. repeat split; [now left | exact Ht]. }
    rewrite rmatch_Plus in H.
    apply IH1 in H as (m1 & s1 & c1 & -> & M1 & H).
    apply Hmore in H as (m2 & s2 & c2 & -> & Hm2 & H).
    exists (m1 ++ m2), s2, c2. rewrite app_assoc.
    repeat split; [|exact H].
    destruct Hm2 as [->|M2].
    + rewrite app_nil_r. now apply M_PlusOne.
    + destruct m1 as [|x m1]; [exact M2|].
      now apply M_PlusMore.
  - simpl in H. apply IH1 in H as (m & s' & c' & -> & M & H).
    exists m, s', ((n, firstn (length (m ++ s') - length s') (m ++ s')) :: c').
    repeat split; [now constructor | exact H].
Qed.

(** A word of the language in front of a continuation that accepts what
    follows is never missed. *)
Lemma rmatch_complete_more r m :
  matches r m ->
  (forall k s', (forall caps, k s' caps <> None) ->
                forall caps, rmatch r (m ++ s') caps k <> None) /\
  (forall r1, r = Plus r1 ->
     forall k s', (forall caps, k s' caps <> None) ->
     forall fuel caps, length (m ++ s') <= fuel ->
                       more r1 k fuel (m ++ s') caps <> None).
Proof.
  induction 1 as [|c|c Hc|r1 r2 m1 m2 _ [IH1 _] _ [IH2 _]
                 |r m _ [IH _]| |r m _ [IH _]
                 |r m1 m2 _ [IH1 _] Hne _ [_ IH2]|n r m _ [IH _]];
    (split; [|try discriminate]).
  - intros k s' Hk caps. apply Hk.
  - intros k s' Hk caps. simpl. rewrite N.eqb_refl. apply Hk.
  - intros k s' Hk caps. simpl. rewrite Hc. apply Hk.
  - intros k s' Hk caps. simpl. rewrite <- app_assoc.
    apply IH1. intros caps1. apply IH2, Hk.
  - intros k s' Hk caps. simpl.
    specialize (IH k s' Hk caps).
    destruct (rmatch r (m ++ s') caps k); [discriminate | contradiction].
  - intros k s' Hk caps. simpl.
    destruct (rmatch r s' caps k); [discriminate | apply Hk].
  - intros k s' Hk caps. rewrite rmatch_Plus.
    apply IH. intros caps1. apply more_stop, Hk.
  - intros r1 [= <-] k s' Hk fuel caps Hfuel.
    destruct m as [|x m]; [apply more_stop, Hk|].
    destruct fuel as [|fuel]; [simpl in Hfuel; lia|].
    rewrite more_S.
    match goal with |- context [rmatch r ?t ?c ?K] =>
      assert (HK : rmatch r t c K <> None) end.
    { apply IH. intros caps1.
      destruct (Nat.ltb_spec (length s') (length ((x :: m) ++ s')))
        as [_|Hge]; [apply more_stop, Hk|].
      rewrite length_app in Hge. simpl in Hge. lia. }
    destruct (rmatch r _ caps _); [discriminate | contradiction].
  - intros k s' Hk caps. rewrite rmatch_Plus, <- app_assoc.
    apply IH1. intros caps1. now apply IH2.
  - intros r1 [= <-] k s' Hk fuel caps Hfuel.
    rewrite <- app_assoc in *.
    destruct fuel as [|fuel].
    { destruct m1; [contradiction | simpl in Hfuel; lia]. }
    rewrite more_S.
    match goal with |- context [rmatch r ?t ?c ?K] =>
      assert (HK : rmatch r t c K <> None) end.
    { apply IH1. intros caps1.
      rewrite length_app in Hfuel.
      destruct (Nat.ltb_spec (length (m2 ++ s')) (length (m1 ++ m2 ++ s')))
        as [_|Hge].
      - apply (IH2 r eq_refl k s' Hk). destruct m1; [contradiction|].
        simpl in Hfuel. lia.
      - rewrite (length_app m1) in Hge. destruct m1; [contradiction|].
        simpl in Hge. lia. }
    destruct (rmatch r _ caps _); [discriminate | contradiction].
  - intros k s' Hk caps. simpl. apply IH. intros caps1. apply Hk.
Qed.

Lemma rmatch_complete r m k s' caps :
  matches r m -> (forall caps', k s' caps' <> None) ->
  rmatch r (m ++ s') caps k <> None.
Proof. intros M Hk. now apply (proj1 (rmatch_complete_more M)). Qed.

End MatcherFacts.

(** ** Searching *)

Lemma firstn_app_exact (m s' : str) :
  firstn (length (m ++ s') - length s') (m ++ s') = m.
Proof.
  rewrite length_app, Nat.add_sub.
  rewrite firstn_app, Nat.sub_diag, firstn_all. simpl. apply app_nil_r.
Qed.

Lemma match_here_sound r s s' caps :
  match_here r s = Some (s', caps) ->
  exists m, s = m ++ s' /\ matches r m.
Proof.
  unfold match_here. intros H.
  apply rmatch_sound in H as (m & t & c & -> & M & [= <- _]).
  now exists m.
Qed.

Lemma match_here_complete r m rest :
  matches r m -> match_here r (m ++ rest) <> None.
Proof.
  intros M. unfold match_here. now apply rmatch_complete.
Qed.

Lemma match_at_None r pos s :
  match_at r pos s = None <-> match_here r s = None.
Proof.
  unfold match_at. destruct (match_here r s) as [[s' caps]|]; split;
    congruence.
Qed.

(** A search fails exactly when no attempt succeeds. *)
Lemma search_from_None r : forall s pos,
  search_from r pos s = None <->
  (forall pre t, s = pre ++ t -> match_here r t = None).
Proof.
  induction s as [|c s IH]; intros pos; simpl.
  - destruct (match_at r pos []) eqn:E.
    + split; [discriminate|]. intros H.
      assert (E' : match_at r pos [] = None)
        by (apply match_at_None, (H [] []); reflexivity).
      congruence.
    + split; [|reflexivity]. intros _ pre t Ht.
      symmetry in Ht. apply app_eq_nil in Ht as [_ ->].
      now apply match_at_None in E.
  - destruct (match_at r pos (c :: s)) eqn:E.
    + split; [discriminate|]. intros H.
      assert (E' : match_at r pos (c :: s) = None)
        by (apply match_at_None, (H [] (c :: s)); reflexivity).
      congruence.
    + rewrite IH. apply match_at_None in E. split.
      * intros H [|x pre] t Ht; simpl in Ht.
        -- now subst t.
        -- injection Ht as _ ->. now apply (H pre t).
      * intros H pre t ->. now apply (H (c :: pre) t).
  Qed.

(** The search finds nothing exactly when the pattern does not occur. *)
Lemma search_None_iff r s : search r s = None <-> ~ occurs r s.
Proof.
  unfold search. rewrite search_from_None. split.
  - intros H (pre & m & post & -> & M).
    apply (match_here_complete post M), (H pre). reflexivity.
  - intros H pre t ->.
    destruct (match_here r t) as [[s' caps]|] eqn:E; [|reflexivity].
    apply match_here_sound in E as (m & -> & M).
    exfalso. apply H. now exists pre, m, s'.
Qed.

(** The first position where an attempt succeeds decides the search. *)
Lemma search_from_first r t : forall pre pos,
  (forall pre1 pre2, pre = pre1 ++ pre2 -> pre2 <> [] ->
                     match_here r (pre2 ++ t) = None) ->
  search_from r pos (pre ++ t) = search_from r (pos + length pre) t.
Proof.
  induction pre as [|c pre IH]; intros pos Hpre; simpl.
  - now rewrite Nat.add_0_r.
  - assert (E : match_at r pos (c :: pre ++ t) = None).
    { apply match_at_None, (Hpre [] (c :: pre)); [reflexivity|discriminate]. }
    rewrite E, IH, Nat.add_succ_r; [reflexivity|].
    intros pre1 pre2 -> Hne. now apply (Hpre (c :: pre1) pre2).
Qed.

(** ** Literal runs and runs of digits *)

Section RunFacts.
Variable A : Type.
Implicit Types (s m : str) (caps : captures) (k : cont A).

Lemma rmatch_Seq r1 r2 s caps k :
  rmatch (Seq r1 r2) s caps k =
  rmatch r1 s caps (fun s1 caps1 => rmatch r2 s1 caps1 k).
Proof. reflexivity. Qed.

Lemma rmatch_Opt r s caps k :
  rmatch (Opt r) s caps k =
  match rmatch r s caps k with
  | Some a => Some a
  | None => k s caps
  end.
Proof. reflexivity. Qed.

Lemma rmatch_Chr c x s caps k :
  rmatch (Chr c) (x :: s) caps k = if (x =? c)%N then k s caps else None.
Proof. reflexivity. Qed.

Lemma rmatch_Group n r s caps k :
  rmatch (Group n r) s caps k =
  rmatch r s caps (fun s' caps' =>
    k s' ((n, firstn (length s - length s') s) :: caps')).
Proof. reflexivity. Qed.

Lemma rmatch_str_re l : forall s caps k,
  rmatch (str_re l) (l ++ s) caps k = k s caps.
Proof.
  induction l as [|c l IH]; intros s caps k; simpl; [reflexivity|].
  rewrite N.eqb_refl. apply IH.
Qed.

(** Behind the last digit of a run the repetition stops and goes on
    with what follows. *)
Lemma more_digits k rest a : forall ds fuel caps,
  forallb isdecimal ds = true -> starts_decimal rest = false ->
  length (ds ++ rest) <= fuel -> k rest caps = Some a ->
  more Digit k fuel (ds ++ rest) caps = Some a.
Proof.
  induction ds as [|d ds IH]; intros fuel caps Hds Hrest Hfuel Hk.
  - destruct fuel as [|fuel]; [exact Hk|].
    rewrite more_S. simpl.
    destruct rest as [|c rest]; [exact Hk|].
    simpl in Hrest. rewrite Hrest. exact Hk.
  - simpl in Hds. apply andb_true_iff in Hds as [Hd Hds].
    destruct fuel as [|fuel]; [simpl in Hfuel; lia|].
    rewrite more_S. simpl. rewrite Hd.
    destruct (Nat.ltb_spec (length (ds ++ rest)) (S (length (ds ++ rest))))
      as [_|Hge]; [|lia].
    rewrite (IH fuel caps); trivial. simpl in Hfuel. lia.
Qed.

Lemma rmatch_digits k rest a ds caps :
  digits ds -> starts_decimal rest = false -> k rest caps = Some a ->
  rmatch (Plus Digit) (ds ++ rest) caps k = Some a.
Proof.
  intros [Hne Hds] Hrest Hk. destruct ds as [|d ds]; [contradiction|].
  simpl in Hds. apply andb_true_iff in Hds as [Hd Hds].
  rewrite rmatch_Plus. simpl. rewrite Hd.
  now apply more_digits.
Qed.

Lemma rmatch_no_digit k s caps :
  starts_decimal s = false -> rmatch (Plus Digit) s caps k = None.
Proof.
  intros Hs. rewrite rmatch_Plus. simpl.
  destruct s as [|c s]; [reflexivity|]. simpl in Hs. now rewrite Hs.
Qed.

(** The number of the energy pattern takes the whole literal when what
    follows cannot make it longer. *)
Lemma rmatch_number k sg ip fr rest caps a :
  sign sg -> digits ip -> fraction fr -> continues fr rest = false ->
  k rest caps = Some a ->
  rmatch number (sg ++ ip ++ fr ++ rest) caps k = Some a.
Proof.
  intros Hsg Hip Hfr Hrest Hk.
  apply orb_false_iff in Hrest as [Hdec Hpoint].
  assert (Htail : rmatch (Seq (Plus Digit)
                           (Opt (Seq (Chr (chr "."%char)) (Plus Digit))))
                    (ip ++ fr ++ rest) caps k = Some a).
  { rewrite rmatch_Seq. destruct Hfr as [->|(fp & -> & Hfp)].
    - apply rmatch_digits; trivial. simpl app.
      rewrite rmatch_Opt, rmatch_Seq.
      assert (E : rmatch (Chr (chr ".")) rest caps
                    (fun s1 c1 => rmatch (Plus Digit) s1 c1 k) = None).
      { destruct rest as [|c rest]; [reflexivity|].
        rewrite rmatch_Chr. unfold starts_fraction in Hpoint.
        destruct (c =? chr ".")%N; [|reflexivity].
        now apply rmatch_no_digit. }
      now rewrite E.
    - apply rmatch_digits; trivial.
      change ((chr "." :: fp) ++ rest) with (chr "." :: fp ++ rest).
      rewrite rmatch_Opt, rmatch_Seq, rmatch_Chr, N.eqb_refl.
      erewrite rmatch_digits; eauto. }
  unfold number. rewrite rmatch_Seq, rmatch_Opt.
  destruct Hsg as [->| ->].
  - simpl app at 1.
    destruct ip as [|d ip]; [now destruct Hip|].
    change ((d :: ip) ++ fr ++ rest) with (d :: ip ++ fr ++ rest) in *.
    rewrite rmatch_Chr.
    destruct (N.eqb_spec d (chr "-")) as [->|]; [|exact Htail].
    destruct Hip as [_ Hip]. simpl in Hip. discriminate Hip.
  - change ([chr "-"] ++ ?t) with (chr "-" :: t).
    rewrite rmatch_Chr, N.eqb_refl.
    now rewrite Htail.
Qed.

End RunFacts.

(** ** The language of the energy pattern *)

Lemma matches_str_re l : matches (str_re l) l.
Proof.
  induction l as [|c l IH]; simpl; [constructor|].
  change (c :: l) with ([c] ++ l). constructor; [constructor | exact IH].
Qed.

Lemma matches_str_re_inv l : forall m, matches (str_re l) m -> m = l.
Proof.
  induction l as [|c l IH]; intros m M; simpl in M.
  - now inversion M.
  - inversion M as [| | |r1 r2 m1 m2 M1 M2| | | | |]; subst.
    inversion M1; subst. simpl. f_equal. now apply IH.
Qed.

Lemma matches_digits ds : digits ds -> matches (Plus Digit) ds.
Proof.
  intros [Hne Hds]. induction ds as [|d ds IH]; [contradiction|].
  simpl in Hds. apply andb_true_iff in Hds as [Hd Hds].
  destruct ds as [|d' ds].
  - apply M_PlusOne. now constructor.
  - change (d :: d' :: ds) with ([d] ++ d' :: ds).
    apply M_PlusMore; [now constructor | discriminate |].
    apply IH; [discriminate | exact Hds].
Qed.

Lemma matches_digits_inv r m :
  matches r m -> r = Plus Digit -> digits m.
Proof.
  induction 1 as [| | | | | |r m M _|r m1 m2 M1 _ Hne M2 IH|];
    try discriminate; intros [= ->].
  - inversion M as [|?|c Hc| | | | | |]; subst. split; [discriminate|].
    simpl. now rewrite Hc.
  - inversion M1 as [|?|c Hc| | | | | |]; subst.
    destruct (IH eq_refl) as [_ Hds]. split; [discriminate|].
    simpl. now rewrite Hc.
Qed.

Lemma matches_number sg ip fr :
  sign sg -> digits ip -> fraction fr -> matches number (sg ++ ip ++ fr).
Proof.
  intros Hsg Hip Hfr. unfold number.
  apply M_Seq; [|apply M_Seq].
  - destruct Hsg as [->| ->]; [apply M_OptNone|].
    apply M_OptSome. constructor.
  - now apply matches_digits.
  - destruct Hfr as [->|(fp & -> & Hfp)]; [apply M_OptNone|].
    apply M_OptSome. change (chr "." :: fp) with ([chr "."%char] ++ fp).
    apply M_Seq; [constructor | now apply matches_digits].
Qed.

Lemma matches_number_inv m :
  matches number m ->
  exists sg ip fr, m = sg ++ ip ++ fr /\ sign sg /\ digits ip /\ fraction fr.
Proof.
  unfold number. intros M.
  inversion M as [| | |r1 r2 sg m' Msg M'| | | | |]; subst.
  inversion M' as [| | |r1 r2 ip fr Mip Mfr| | | | |]; subst.
  exists sg, ip, fr. repeat split.
  - inversion Msg as [| | | |r m Mm| | | |]; subst; [|now left].
    inversion Mm; subst. now right.
  - now apply (matches_digits_inv Mip).
  - now apply (matches_digits_inv Mip).
  - inversion Mfr as [| | | |r m Mm| | | |]; subst; [|now left].
    inversion Mm as [| | |r1 r2 pt fp Mpt Mfp| | | | |]; subst.
    inversion Mpt; subst. right. exists fp. split; [reflexivity|].
    now apply (matches_digits_inv Mfp).
Qed.

Lemma matches_regex sg ip fr :
  sign sg -> digits ip -> fraction fr ->
  matches regex (lit "FINAL ENERGY: " ++ sg ++ ip ++ fr).
Proof.
  intros Hsg Hip Hfr. unfold regex.
  apply M_Seq; [apply matches_str_re|].
  apply M_Group. now apply matches_number.
Qed.

Lemma matches_prefixed_inv l n r m :
  matches (Seq (str_re l) (Group n r)) m ->
  exists m2, m = l ++ m2 /\ matches r m2.
Proof.
  intros M.
  inversion M as [| | |r1 r2 m1 m2 M1 M2| | | | |]; subst.
  apply matches_str_re_inv in M1 as ->.
  inversion M2; subst. now exists m2.
Qed.

Lemma matches_regex_inv m :
  matches regex m ->
  exists sg ip fr, m = lit "FINAL ENERGY: " ++ sg ++ ip ++ fr
                   /\ sign sg /\ digits ip /\ fraction fr.
Proof.
  intros M. apply matches_prefixed_inv in M as (m2 & -> & M).
  apply matches_number_inv in M as (sg & ip & fr & -> & H).
  now exists sg, ip, fr.
Qed.

(** ** The search of [parse_energy] *)

Lemma match_here_energy sg ip fr rest :
  sign sg -> digits ip -> fraction fr -> continues fr rest = false ->
  match_here regex (lit "FINAL ENERGY: " ++ sg ++ ip ++ fr ++ rest)
  = Some (rest, [(1, sg ++ ip ++ fr)]).
Proof.
  intros Hsg Hip Hfr Hrest. unfold match_here, regex.
  rewrite rmatch_Seq, rmatch_str_re, rmatch_Group.
  apply rmatch_number; trivial.
  replace (sg ++ ip ++ fr ++ rest) with ((sg ++ ip ++ fr) ++ rest)
    by now rewrite <- !app_assoc.
  now rewrite firstn_app_exact.
Qed.

Lemma search_from_hit r pos s m :
  match_at r pos s = Some m -> search_from r pos s = Some m.
Proof. intros H. destruct s; simpl; now rewrite H. Qed.

(** The letter F stands only at the head of a minimal match. *)
Lemma energy_head_only sg d :
  sign sg -> isdecimal d = true ->
  ~ In (chr "F"%char) (tl (lit "FINAL ENERGY: " ++ sg ++ [d])).
Proof.
  intros Hsg Hd Hin.
  change (tl (lit "FINAL ENERGY: " ++ sg ++ [d]))
    with (tl (lit "FINAL ENERGY: ") ++ sg ++ [d]) in Hin.
  apply in_app_or in Hin as [Hin|Hin].
  - simpl in Hin. repeat (destruct Hin as [Hin|Hin]; [discriminate Hin|]).
    exact Hin.
  - apply in_app_or in Hin as [Hin|[Hin|[]]].
    + destruct Hsg as [->| ->]; [exact Hin|].
      destruct Hin as [Hin|[]]. discriminate Hin.
    + subst d. discriminate Hd.
Qed.

(** In front of an occurrence of [FINAL ENERGY: ] an attempt can only
    succeed on an occurrence of the pattern that ends before it. *)
Lemma energy_not_earlier pre rest :
  ~ occurs regex pre ->
  forall pre1 pre2, pre = pre1 ++ pre2 -> pre2 <> [] ->
    match_here regex (pre2 ++ lit "FINAL ENERGY: " ++ rest) = None.
Proof.
  intros Hpre pre1 pre2 -> Hne.
  destruct (match_here regex _) as [[s' caps]|] eqn:E; [|reflexivity].
  exfalso. apply match_here_sound in E as (m & Hm & M).
  apply matches_regex_inv in M as (sg & ip & fr & -> & Hsg & Hip & Hfr).
  destruct ip as [|d ip]; [now destruct Hip|].
  assert (Hd : isdecimal d = true).
  { destruct Hip as [_ Hip]. simpl in Hip.
    now apply andb_true_iff in Hip as [Hd _]. }
  assert (M0 : matches regex (lit "FINAL ENERGY: " ++ sg ++ [d] ++ [])).
  { apply matches_regex; trivial; [|now left].
    split; [discriminate|]. simpl. now rewrite Hd. }
  rewrite app_nil_r in M0.
  replace ((lit "FINAL ENERGY: " ++ sg ++ (d :: ip) ++ fr) ++ s')
    with ((lit "FINAL ENERGY: " ++ sg ++ [d]) ++ ip ++ fr ++ s') in Hm
    by (rewrite <- !app_assoc; reflexivity).
  apply app_eq_app in Hm as (l & [[Hp Hl]|[Hp Hl]]).
  - apply Hpre. exists pre1, (lit "FINAL ENERGY: " ++ sg ++ [d]), l.
    now rewrite Hp.
  - destruct l as [|x l].
    + rewrite app_nil_r in Hp. subst pre2. apply Hpre.
      exists pre1, (lit "FINAL ENERGY: " ++ sg ++ [d]), [].
      now rewrite app_nil_r.
    + injection Hl as <- _.
      apply (@energy_head_only sg d Hsg Hd). rewrite Hp.
      destruct pre2 as [|p pre2]; [contradiction|].
      simpl. apply in_or_app. right. now left.
Qed.

Lemma span_decimal_app ds rest :
  forallb isdecimal ds = true -> starts_decimal rest = false ->
  span_decimal (ds ++ rest) = (ds, rest).
Proof.
  intros Hds Hrest. induction ds as [|d ds IH]; simpl.
  - destruct rest as [|c rest]; [reflexivity|].
    simpl in *. now rewrite Hrest.
  - simpl in Hds. apply andb_true_iff in Hds as [Hd Hds].
    now rewrite Hd, IH.
Qed.

(** [float] reads a literal of the pattern as the number it writes,
    unless it is too long. *)
Lemma float_number sg ip fr :
  sign sg -> digits ip -> fraction fr ->
  float (sg ++ ip ++ fr) = literal_result sg ip fr.
Proof.
  intros Hsg [Hne Hip] Hfr.
  assert (Htail : forall neg,
    float_digits neg (ip ++ fr)
    = if too_long ip (tl fr) then Raise ValueError
      else Return (float_of_decimal neg (int_digits 0 (ip ++ tl fr))
                                    (length (tl fr)))).
  { intros neg. unfold float_digits.
    rewrite (span_decimal_app ip fr Hip)
      by (destruct Hfr as [->|(fp & -> & _)]; reflexivity).
    destruct ip as [|d ip]; [contradiction|].
    destruct Hfr as [->|(fp & -> & Hnf & Hfp)].
    - simpl tl. now rewrite app_nil_r.
    - rewrite N.eqb_refl. simpl tl.
      rewrite <- (app_nil_r fp) at 1.
      rewrite (span_decimal_app fp [] Hfp eq_refl).
      destruct fp as [|f fp]; [contradiction|reflexivity]. }
  unfold literal_result, literal_value. destruct Hsg as [->| ->].
  - simpl app. unfold float.
    destruct ip as [|d ip]; [contradiction|].
    change ((d :: ip) ++ fr) with (d :: ip ++ fr) in *.
    cbv iota. destruct (d =? chr "-")%N eqn:E; [|apply Htail].
    apply N.eqb_eq in E. subst d. discriminate Hip.
  - change ([chr "-"] ++ ip ++ fr) with (chr "-" :: ip ++ fr).
    unfold float. cbv iota. rewrite N.eqb_refl. apply Htail.
Qed.

(** The result of [parse_energy] is that of the first occurrence of the
    pattern, read up to where its number ends. *)
Lemma parse_energy_literal pre sg ip fr rest :
  ~ occurs regex pre ->
  sign sg -> digits ip -> fraction fr -> continues fr rest = false ->
  parse_energy (pre ++ lit "FINAL ENERGY: " ++ sg ++ ip ++ fr ++ rest)
  = literal_result sg ip fr.
Proof.
  intros Hpre Hsg Hip Hfr Hrest.
  unfold parse_energy, re_search, search.
  rewrite search_from_first by now apply energy_not_earlier.
  erewrite search_from_hit.
  2:{ unfold match_at. rewrite match_here_energy by trivial. reflexivity. }
  simpl bind. now apply float_number.
Qed.

Lemma parse_energy_first pre sg ip fr rest :
  ~ occurs regex pre ->
  sign sg -> digits ip -> fraction fr -> continues fr rest = false ->
  too_long ip (tl fr) = false ->
  parse_energy (pre ++ lit "FINAL ENERGY: " ++ sg ++ ip ++ fr ++ rest)
  = Return (literal_value sg ip fr).
Proof.
  intros Hpre Hsg Hip Hfr Hrest Hlen.
  rewrite parse_energy_literal by trivial.
  unfold literal_result. now rewrite Hlen.
Qed.

(** ** Every match of the energy pattern *)

Lemma span_decimal_spec s : forall ds r,
  span_decimal s = (ds, r) ->
  s = ds ++ r /\ forallb isdecimal ds = true /\ starts_decimal r = false.
Proof.
  induction s as [|c s IH]; intros ds r E; simpl in E.
  - injection E as <- <-. now repeat split.
  - destruct (isdecimal c) eqn:Hc.
    + destruct (span_decimal s) as [ds' r'] eqn:E'.
      injection E as <- <-.
      destruct (IH ds' r' eq_refl) as (-> & Hds & Hr).
      repeat split; trivial. simpl. now rewrite Hc.
    + injection E as <- <-. repeat split. simpl. exact Hc.
Qed.

(** Behind a sign, a text that begins with a digit splits into the
    longest number and a rest that cannot make it longer. *)
Lemma number_maximal d u :
  isdecimal d = true ->
  exists ip fr rest,
    d :: u = ip ++ fr ++ rest
    /\ digits ip /\ fraction fr /\ continues fr rest = false.
Proof.
  intros Hd.
  destruct (span_decimal (d :: u)) as [ip u2] eqn:E.
  destruct (span_decimal_spec _ E) as (Hu & Hip & Hu2).
  assert (Hne : ip <> []).
  { simpl in E. rewrite Hd in E. destruct (span_decimal u).
    injection E as <- _. discriminate. }
  assert (Hplain : starts_fraction u2 = false ->
                   exists ip0 fr rest,
                     d :: u = ip0 ++ fr ++ rest
                     /\ digits ip0 /\ fraction fr
                     /\ continues fr rest = false).
  { intros Hfr. exists ip, [], u2. repeat split; trivial; [now left|].
    unfold continues. now rewrite Hu2, Hfr. }
  destruct u2 as [|c u3]; [now apply Hplain|].
  destruct (c =? chr ".")%N eqn:Hc.
  2:{ apply Hplain. unfold starts_fraction. now rewrite Hc. }
  apply N.eqb_eq in Hc. subst c.
  destruct (span_decimal u3) as [fp u4] eqn:E3.
  destruct (span_decimal_spec _ E3) as (Hu3 & Hfp & Hu4).
  destruct fp as [|f fp].
  - apply Hplain. simpl in Hu3. subst u4.
    unfold starts_fraction. now rewrite Hu4, andb_false_r.
  - exists ip, (chr "."%char :: f :: fp), u4. repeat split; trivial.
    + now rewrite Hu, Hu3.
    + right. exists (f :: fp). repeat split; [discriminate | exact Hfp].
    + unfold continues. now rewrite Hu4.
Qed.

(** An attempt that succeeds has read [FINAL ENERGY: ] and the longest
    number behind it, and group 1 holds that number. *)
Lemma match_here_energy_inv s s' caps :
  match_here regex s = Some (s', caps) ->
  exists sg ip fr,
    s = lit "FINAL ENERGY: " ++ sg ++ ip ++ fr ++ s'
    /\ caps = [(1, sg ++ ip ++ fr)]
    /\ sign sg /\ digits ip /\ fraction fr /\ continues fr s' = false.
Proof.
  intros H. destruct (match_here_sound _ _ H) as (m & Hs & M).
  apply matches_regex_inv in M as (sg & ip0 & fr0 & -> & Hsg & Hip0 & _).
  destruct ip0 as [|d ip0]; [now destruct Hip0|].
  assert (Hd : isdecimal d = true).
  { destruct Hip0 as [_ Hip0]. simpl in Hip0.
    now apply andb_true_iff in Hip0 as [Hd _]. }
  destruct (@number_maximal d (ip0 ++ fr0 ++ s') Hd)
    as (ip & fr & rest & Hu & Hip & Hfr & Hrest).
  assert (Hs' : s = lit "FINAL ENERGY: " ++ sg ++ ip ++ fr ++ rest).
  { rewrite Hs, <- Hu, <- !app_assoc. reflexivity. }
  rewrite Hs' in H. rewrite match_here_energy in H by trivial.
  injection H as <- <-. now exists sg, ip, fr.
Qed.

Lemma search_from_Some r : forall s pos m,
  search_from r pos s = Some m ->
  exists pre t,
    s = pre ++ t /\ match_at r (pos + length pre) t = Some m
    /\ forall pre1 pre2, pre = pre1 ++ pre2 -> pre2 <> [] ->
                         match_here r (pre2 ++ t) = None.
Proof.
  assert (Hhit : forall s pos m,
             match_at r pos s = Some m ->
             exists pre t,
               s = pre ++ t /\ match_at r (pos + length pre) t = Some m
               /\ forall pre1 pre2, pre = pre1 ++ pre2 -> pre2 <> [] ->
                                    match_here r (pre2 ++ t) = None).
  { intros s pos m E. exists [], s. simpl. rewrite Nat.add_0_r.
    repeat split; trivial. intros pre1 pre2 Hp Hne.
    symmetry in Hp. apply app_eq_nil in Hp as [_ ->]. contradiction. }
  induction s as [|c s IH]; intros pos m H; simpl in H.
  - destruct (match_at r pos []) eqn:E; [|discriminate].
    injection H as ->. now apply Hhit.
  - destruct (match_at r pos (c :: s)) eqn:E.
    + injection H as ->. now apply Hhit.
    + apply IH in H as (pre & t & -> & Hm & Hearly).
      exists (c :: pre), t. simpl. rewrite Nat.add_succ_r.
      repeat split; trivial.
      intros [|x pre1] pre2 Hp Hne; simpl in Hp.
      * subst pre2. now apply match_at_None in E.
      * injection Hp as _ ->. now apply (Hearly pre1 pre2).
Qed.

(** The whole of [parse_energy]: either the pattern occurs nowhere and
    the search fails, or the text splits into a part free of the pattern,
    [FINAL ENERGY: ], the longest number behind it and a rest, and the
    result is what [float] makes of that number. *)
Lemma parse_energy_cases contents :
  (~ occurs regex contents
   /\ parse_energy contents = Raise MatchNotFoundError)
  \/ exists pre sg ip fr rest,
       contents = pre ++ lit "FINAL ENERGY: " ++ sg ++ ip ++ fr ++ rest
       /\ ~ occurs regex pre
       /\ sign sg /\ digits ip /\ fraction fr /\ continues fr rest = false
       /\ parse_energy contents = literal_result sg ip fr.
Proof.
  destruct (search regex contents) as [m|] eqn:E.
  - right. unfold search in E.
    apply search_from_Some in E as (pre & t & -> & Hm & Hearly).
    unfold match_at in Hm.
    destruct (match_here regex t) as [[s' caps]|] eqn:Ht; [|discriminate].
    apply match_here_energy_inv in Ht
      as (sg & ip & fr & -> & -> & Hsg & Hip & Hfr & Hrest).
    assert (Hpre : ~ occurs regex pre).
    { intros (a & m' & b & -> & M).
      apply (match_here_complete
               (b ++ lit "FINAL ENERGY: " ++ sg ++ ip ++ fr ++ s') M).
      rewrite app_assoc. apply (Hearly a (m' ++ b)).
      + reflexivity.
      + apply matches_regex_inv in M as (? & ? & ? & -> & _). discriminate. }
    exists pre, sg, ip, fr, s'.
    repeat (split; [reflexivity || assumption|]).
    now apply parse_energy_literal.
  - left. split; [now apply search_None_iff|].
    unfold parse_energy, re_search. now rewrite E.
Qed.

(** It returns a value exactly for a text that so splits with a number
    that is not too long, and the value is the one that number writes. *)
Lemma parse_energy_Return contents v :
  parse_energy contents = Return v <->
  exists pre sg ip fr rest,
    contents = pre ++ lit "FINAL ENERGY: " ++ sg ++ ip ++ fr ++ rest
    /\ ~ occurs regex pre
    /\ sign sg /\ digits ip /\ fraction fr /\ continues fr rest = false
    /\ too_long ip (tl fr) = false
    /\ v = literal_value sg ip fr.
Proof.
  split.
  - intros Hv. destruct (parse_energy_cases contents)
      as [[_ H]|(pre & sg & ip & fr & rest & Hc & Hpre & Hsg & Hip & Hfr
                 & Hrest & H)];
      rewrite H in Hv; [discriminate|].
    unfold literal_result in Hv.
    destruct (too_long ip (tl fr)) eqn:Hlen; [discriminate|].
    injection Hv as <-.
    exists pre, sg, ip, fr, rest.
    repeat (split; [reflexivity || assumption|]). reflexivity.
  - intros (pre & sg & ip & fr & rest & -> & Hpre & Hsg & Hip & Hfr
            & Hrest & Hlen & ->).
    now apply parse_energy_first.
Qed.

(** [parse_energy] ends in one of three ways: with a value, with
    [MatchNotFoundError], or with the [ValueError] of [float] for a
    number too long; [float] refuses nothing else that group 1 holds. *)
Lemma float_group contents :
  (exists v, parse_energy contents = Return v)
  \/ parse_energy contents = Raise MatchNotFoundError
  \/ parse_energy contents = Raise ValueError.
Proof.
  destruct (parse_energy_cases contents)
    as [[_ H]|(pre & sg & ip & fr & rest & _ & _ & _ & _ & _ & _ & H)];
    rewrite H; [now right; left|].
  unfold literal_result. destruct (too_long ip (tl fr)); eauto.
Qed.

(** ** The artifact iterator *)

Section IterFacts.
Variable Path : Type.
Variable Path_of_str : str -> Path.
Variable str_of_Path : Path -> str.

Local Abbreviation fsys := (filesystem Path).
Local Abbreviation next := (Orca.next Path_of_str str_of_Path).
Local Abbreviation drain := (Orca.drain Path_of_str str_of_Path).
Local Abbreviation to_Path := (Orca.to_Path Path_of_str).
Local Abbreviation not_a_directory := (Orca.not_a_directory str_of_Path).

Implicit Types (fs : fsys) (d : pathlike Path) (s : str).

Lemma rejected_status fs (p : Path) :
  rejected fs p
  = match fs p with
    | Mode Dir => Return false
    | Mode Other => Return true
    | Errno errno =>
        if _ignore_error errno then Return true else Raise (OSError errno)
    | Unencodable => Return true
    end.
Proof.
  unfold rejected, exists_, is_dir.
  destruct (fs p) as [[|]|errno|]; try reflexivity.
  now destruct (_ignore_error errno).
Qed.

Lemma directory_block_dir fs d :
  fs (to_Path d) = Mode Dir ->
  directory_block Path_of_str str_of_Path fs (Some d)
  = (Yield (DIRECTORY, Location (to_Path d)), AtYield59).
Proof.
  intros H. unfold directory_block. now rewrite rejected_status, H.
Qed.

Lemma directory_block_bad fs d :
  no_directory (fs (to_Path d)) = true ->
  directory_block Path_of_str str_of_Path fs (Some d)
  = (Raises (not_a_directory (to_Path d)), Closed).
Proof.
  intros H. unfold directory_block. rewrite rejected_status.
  destruct (fs (to_Path d)) as [[|]|errno|]; try discriminate H;
    try reflexivity.
  simpl in H. now rewrite H.
Qed.

Lemma directory_block_error fs d errno :
  fs (to_Path d) = Errno errno -> _ignore_error errno = false ->
  directory_block Path_of_str str_of_Path fs (Some d)
  = (Raises (OSError errno), Closed).
Proof.
  intros H Herr. unfold directory_block.
  now rewrite rejected_status, H, Herr.
Qed.

(** What a loop over the generator receives, case by case. *)
Lemma drain_iter_files fs (stdout : option str) (directory : option (pathlike Path)) :
  drain 3 fs (iter_files stdout directory)
  = Some (match stdout with Some s => [(STDOUT, Text s)] | None => [] end
          ++ match directory with
             | Some d =>
                 match rejected fs (to_Path d) with
                 | Return false => [(DIRECTORY, Location (to_Path d))]
                 | _ => []
                 end
             | None => []
             end,
          match directory with
          | Some d =>
              match rejected fs (to_Path d) with
              | Return false => None
              | Return true => Some (not_a_directory (to_Path d))
              | Raise e => Some e
              end
          | None => None
          end).
Proof.
  destruct stdout as [s|], directory as [d|]; simpl;
    try destruct (rejected fs (to_Path d)) as [[|]|e]; reflexivity.
Qed.

(** C7: called with neither console text nor a directory, the iterator
    yields nothing and raises nothing: the first [next] already finds
    it exhausted, and a loop over it receives the empty sequence. *)
Theorem iter_files_neither fs :
  next fs (iter_files None None) = (StopIteration, Closed)
  /\ forall fuel, drain (S fuel) fs (iter_files None None) = Some ([], None).
Proof. split; [reflexivity | intros fuel; reflexivity]. Qed.

(** C6: when console text is supplied, the first artifact yielded is
    that text with the file type STDOUT, whatever the directory argument
    and the file system are; a loop over the iterator receives it first. *)
Theorem iter_files_stdout_first fs s (directory : option (pathlike Path)) :
  next fs (iter_files (Some s) directory)
  = (Yield (STDOUT, Text s), AtYield50 directory)
  /\ exists l e,
       drain 3 fs (iter_files (Some s) directory)
       = Some ((STDOUT, Text s) :: l, e).
Proof.
  split; [reflexivity|]. rewrite drain_iter_files. simpl. eauto.
Qed.

(** C9: a loop over the iterator ends, having received at most two
    artifacts: at most one of type STDOUT, the console text, and at
    most one of type DIRECTORY, whose contents are the directory path
    itself as a [Path]; and three calls of [next] close the generator
    even when the file system changes between them. *)
Theorem iter_files_at_most_two fs (stdout : option str)
  (directory : option (pathlike Path)) :
  (exists l e,
     drain 3 fs (iter_files stdout directory) = Some (l, e)
     /\ length l <= 2
     /\ length (of_type STDOUT l) <= 1
     /\ length (of_type DIRECTORY l) <= 1
     /\ forall a, In a l ->
          (exists s, stdout = Some s /\ a = (STDOUT, Text s))
          \/ (exists d, directory = Some d
                        /\ a = (DIRECTORY, Location (to_Path d))))
  /\ forall fs1 fs2 fs3,
       snd (next fs3 (snd (next fs2 (snd (next fs1
             (iter_files stdout directory)))))) = Closed.
Proof.
  split.
  - rewrite drain_iter_files. eexists _, _. split; [reflexivity|].
    destruct stdout as [s|], directory as [d|]; simpl;
      try destruct (rejected fs (to_Path d)) as [[|]|e0]; simpl;
      (repeat split; [lia..|]); intros a Ha;
      repeat (destruct Ha as [<-|Ha]; [eauto|]); contradiction.
  - intros fs1 fs2 fs3.
    destruct stdout as [s|], directory as [d|]; simpl;
      try destruct (rejected fs1 (to_Path d)) as [[|]|e1];
      try destruct (rejected fs2 (to_Path d)) as [[|]|e2]; reflexivity.
Qed.

(** C4, as the code has it: for a directory whose status [stat()] can
    read and is that of a directory, the iterator yields one artifact, of
    the declared file type DIRECTORY and holding the directory path
    itself.  It does not list the directory: no other path, so no file
    inside it, relevant or not, is ever yielded; no error is raised, and
    what the rest of the file system holds (the entries of the directory
    among it) changes nothing. *)
Theorem iter_files_ignores_entries fs (stdout : option str) d :
  fs (to_Path d) = Mode Dir ->
  drain 3 fs (iter_files stdout (Some d))
  = Some (match stdout with Some s => [(STDOUT, Text s)] | None => [] end
          ++ [(DIRECTORY, Location (to_Path d))], None)
  /\ (forall l e t q,
        drain 3 fs (iter_files stdout (Some d)) = Some (l, e) ->
        q <> to_Path d -> ~ In (t, Location q) l)
  /\ (forall fs',
        fs' (to_Path d) = Mode Dir ->
        drain 3 fs' (iter_files stdout (Some d))
        = drain 3 fs (iter_files stdout (Some d))).
Proof.
  intros Hd. rewrite drain_iter_files, rejected_status, Hd.
  split; [reflexivity|]. split.
  - intros l e t q [= <- <-] Hq Hin.
    apply in_app_or in Hin as [Hin|[[= _ Hin]|[]]]; [|now subst q].
    destruct stdout; [destruct Hin as [Hin|[]]; discriminate Hin|exact Hin].
  - intros fs' Hd'. now rewrite drain_iter_files, rejected_status, Hd'.
Qed.

(** C3, as the code has it: a directory argument that [stat()] shows not
    to exist or not to be a directory makes the iterator raise
    [ParserError] instead of ever yielding a DIRECTORY artifact.  Without
    console text the error comes before anything is yielded; with
    console text the STDOUT artifact is yielded first and the error comes
    when the generator is resumed. *)
Theorem iter_files_bad_directory fs d :
  no_directory (fs (to_Path d)) = true ->
  next fs (iter_files None (Some d))
  = (Raises (not_a_directory (to_Path d)), Closed)
  /\ (forall s fs0,
        exists g,
          next fs0 (iter_files (Some s) (Some d))
          = (Yield (STDOUT, Text s), g)
          /\ next fs g = (Raises (not_a_directory (to_Path d)), Closed))
  /\ forall stdout,
       drain 3 fs (iter_files stdout (Some d))
       = Some (match stdout with Some s => [(STDOUT, Text s)] | None => [] end,
               Some (not_a_directory (to_Path d))).
Proof.
  intros Hd.
  split; [|split].
  - simpl. now apply directory_block_bad.
  - intros s fs0. eexists. split; [reflexivity|].
    simpl. now apply directory_block_bad.
  - intros stdout. rewrite drain_iter_files, rejected_status.
    destruct (fs (to_Path d)) as [[|]|errno|]; try discriminate Hd;
      try (now rewrite app_nil_r).
    simpl in Hd. rewrite Hd. now rewrite app_nil_r.
Qed.

End IterFacts.

Lemma drain_agrees (Path : Type) (Path_of_str : str -> Path)
  (str_of_Path : Path -> str) (fs1 fs2 : filesystem Path)
  (stdout : option str) (directory : option (pathlike Path)) :
  (forall d, directory = Some d ->
             fs1 (to_Path Path_of_str d) = fs2 (to_Path Path_of_str d)) ->
  forall fuel,
    drain Path_of_str str_of_Path fuel fs1 (iter_files stdout directory)
    = drain Path_of_str str_of_Path fuel fs2 (iter_files stdout directory).
Proof.
  intros Hfs fuel.
  destruct directory as [d|].
  - specialize (Hfs d eq_refl).
    assert (Hr : rejected fs1 (to_Path Path_of_str d)
                 = rejected fs2 (to_Path Path_of_str d))
      by (unfold rejected, exists_, is_dir; now rewrite Hfs).
    destruct stdout as [s|]; destruct fuel as [|[|[|fuel]]]; simpl;
      rewrite ?Hr;
      destruct (rejected fs2 (to_Path Path_of_str d)) as [[|]|e];
      reflexivity.
  - destruct stdout as [s|]; destruct fuel as [|[|[|fuel]]]; reflexivity.
Qed.

(** ** The claims about [parse_energy] and about both routines *)

(** ** Rounding never leaves the sign or the numbers *)

Lemma shr_1_nonneg mrs :
  (0 <= shr_m mrs)%Z -> (0 <= shr_m (shr_1 mrs))%Z.
Proof.
  destruct mrs as [m r s]. destruct m as [|p|p]; simpl; intros H;
    try destruct p; simpl; lia.
Qed.

Lemma iter_pos_shr_1_nonneg p : forall mrs,
  (0 <= shr_m mrs)%Z -> (0 <= shr_m (iter_pos shr_1 p mrs))%Z.
Proof.
  induction p as [p IH|p IH|]; simpl; intros mrs H.
  - now apply IH, IH, shr_1_nonneg.
  - now apply IH, IH.
  - now apply shr_1_nonneg.
Qed.

Lemma shr_fexp_nonneg m e l :
  (0 <= m)%Z -> (0 <= shr_m (fst (shr_fexp prec emax m e l)))%Z.
Proof.
  intros H. unfold shr_fexp, shr.
  assert (H0 : (0 <= shr_m (shr_record_of_loc m l))%Z)
    by (destruct l as [|[]]; exact H).
  destruct (_ - e)%Z; simpl; trivial.
  now apply iter_pos_shr_1_nonneg.
Qed.

Lemma round_nearest_even_nonneg m l :
  (0 <= m)%Z -> (0 <= round_nearest_even m l)%Z.
Proof.
  intros H. destruct l as [|[]]; simpl; try lia.
  destruct (Z.even m); lia.
Qed.

Lemma binary_round_aux_signed sx mx ex lx :
  (0 <= mx)%Z ->
  binary_round_aux prec emax sx mx ex lx <> S754_nan
  /\ signbit (binary_round_aux prec emax sx mx ex lx) = sx.
Proof.
  intros H. unfold binary_round_aux.
  pose proof (shr_fexp_nonneg ex lx H) as H1.
  destruct (shr_fexp prec emax mx ex lx) as [mrs' e']. simpl in H1.
  pose proof (shr_fexp_nonneg e' loc_Exact
                (round_nearest_even_nonneg (loc_of_shr_record mrs') H1)) as H2.
  destruct (shr_fexp prec emax _ e' loc_Exact) as [mrs'' e'']. simpl in H2.
  destruct (shr_m mrs'') as [|m|m]; [| |lia].
  - split; [discriminate|reflexivity].
  - destruct (e'' <=? emax - prec)%Z; split; (discriminate || reflexivity).
Qed.

Lemma float_of_decimal_signed neg n k :
  float_of_decimal neg n k <> S754_nan
  /\ signbit (float_of_decimal neg n k) = neg.
Proof.
  unfold float_of_decimal. destruct n as [|p].
  - split; [discriminate|reflexivity].
  - unfold SFdiv.
    destruct (SFdiv_core_binary prec emax (Z.pos p) 0 (Z.pos (pow10 k)) 0)
      as [[mz ez] lz] eqn:E.
    rewrite xorb_false_r. apply binary_round_aux_signed.
    unfold SFdiv_core_binary in E.
    set (m' := match (0 - 0 - _)%Z with
               | Z0 => Z.pos p
               | Z.pos _ => Z.shiftl (Z.pos p) _
               | Z.neg _ => 0%Z
               end) in E.
    assert (Hm' : (0 <= m')%Z).
    { subst m'. destruct (0 - 0 - _)%Z; try lia.
      apply Z.shiftl_nonneg. lia. }
    pose proof (Z_div_mod m' (Z.pos (pow10 k)) eq_refl) as Hdiv.
    destruct (Z.div_eucl m' (Z.pos (pow10 k))) as [q r].
    injection E as <- _ _. nia.
Qed.


Lemma SFeqb_refl v : v <> S754_nan -> SFeqb v v = true.
Proof.
  intros Hv. unfold SFeqb, SFcompare.
  destruct v as [[|]|[|]| |[|] m e]; try reflexivity; try contradiction;
    now rewrite Z.compare_refl, Pos.compare_cont_refl.
Qed.

(** C8, as the code has it: [parse_energy] gives one console text one
    result: the values of two runs are the same float, bit for bit and
    under the comparison of floats (the value is never a NaN, which
    equals nothing), and the failures are the same; and two runs of
    [iter_files] on the same arguments receive the same artifacts and end
    the same way whenever the two file systems give the directory path
    the same status, whatever else they hold. *)
Theorem parsing_deterministic (Path : Type) (Path_of_str : str -> Path)
  (str_of_Path : Path -> str) (contents : str) (fs1 fs2 : filesystem Path)
  (stdout : option str) (directory : option (pathlike Path)) :
  (forall d, directory = Some d ->
             fs1 (to_Path Path_of_str d) = fs2 (to_Path Path_of_str d)) ->
  (forall v1 v2,
     parse_energy contents = Return v1 -> parse_energy contents = Return v2 ->
     v1 = v2 /\ SFeqb v1 v2 = true)
  /\ (forall e1 e2,
        parse_energy contents = Raise e1 -> parse_energy contents = Raise e2 ->
        e1 = e2)
  /\ forall fuel,
       drain Path_of_str str_of_Path fuel fs1 (iter_files stdout directory)
       = drain Path_of_str str_of_Path fuel fs2 (iter_files stdout directory).
Proof.
  intros Hfs. split; [|split].
  - intros v1 v2 H1 H2. rewrite H1 in H2. injection H2 as <-.
    split; [reflexivity|]. apply SFeqb_refl.
    apply parse_energy_Return in H1
      as (pre & sg & ip & fr & rest & _ & _ & _ & _ & _ & _ & _ & ->).
    apply float_of_decimal_signed.
  - intros e1 e2 H1 H2. rewrite H1 in H2. now injection H2.
  - now apply drain_agrees.
Qed.

(** C5: when the pattern, [FINAL ENERGY: ] and a number, occurs nowhere
    in the console text, [parse_energy] raises [MatchNotFoundError] and
    returns no value at all. *)
Theorem parse_energy_absent contents :
  ~ occurs regex contents ->
  parse_energy contents = Raise MatchNotFoundError
  /\ forall v, parse_energy contents <> Return v.
Proof.
  intros H. apply search_None_iff in H.
  unfold parse_energy, re_search. rewrite H.
  split; [reflexivity | discriminate].
Qed.

(** C1, as the code has it: when [FINAL ENERGY: -1.0] is the first
    occurrence of the pattern (none occurs in the text before it) and is
    not followed at once by a further digit, [parse_energy] returns -1.0,
    the binary64 number [-4503599627370496 * 2^-52], whatever comes
    later, a second occurrence [FINAL ENERGY: -2.0] included. *)
Theorem parse_energy_first_of_two pre mid post :
  ~ occurs regex pre -> starts_decimal mid = false ->
  parse_energy (pre ++ lit "FINAL ENERGY: -1.0" ++ mid
                    ++ lit "FINAL ENERGY: -2.0" ++ post)
  = Return (S754_finite true 4503599627370496 (-52)).
Proof.
  intros Hpre Hmid.
  change (parse_energy
            (pre ++ lit "FINAL ENERGY: " ++ [chr "-"%char] ++ [chr "1"%char]
                 ++ lit ".0"
                 ++ (mid ++ lit "FINAL ENERGY: -2.0" ++ post))
          = Return (S754_finite true 4503599627370496 (-52))).
  rewrite parse_energy_first; trivial.
  - now right.
  - split; [discriminate | reflexivity].
  - right. exists [chr "0"%char]. repeat split. discriminate.
  - destruct mid as [|c mid]; [reflexivity|].
    simpl in Hmid. unfold continues. simpl. now rewrite Hmid.
Qed.

(** C2, as the code has it: when [FINAL ENERGY: -76.404459] is the first
    occurrence of the pattern and is not followed at once by a further
    digit, [parse_energy] returns the float -76.404459, the binary64
    number [-5376485829403818 * 2^-46], whatever else surrounds it. *)
Theorem parse_energy_anywhere pre post :
  ~ occurs regex pre -> starts_decimal post = false ->
  parse_energy (pre ++ lit "FINAL ENERGY: -76.404459" ++ post)
  = Return (S754_finite true 5376485829403818 (-46)).
Proof.
  intros Hpre Hpost.
  change (parse_energy
            (pre ++ lit "FINAL ENERGY: " ++ [chr "-"%char] ++ lit "76"
                 ++ lit ".404459" ++ post)
          = Return (S754_finite true 5376485829403818 (-46))).
  rewrite parse_energy_first; trivial.
  - now right.
  - split; [discriminate | reflexivity].
  - right. exists (lit "404459"). repeat split. discriminate.
  - unfold continues. now rewrite Hpost.
Qed.

(** C10, as the code has it: when the first occurrence of the pattern
    is [FINAL ENERGY: ] and a number in scientific notation whose
    mantissa has the shape of the pattern (an optional minus sign,
    digits, an optional point and digits, not too long for [float]) and
    is followed by the letter e, [parse_energy] does not fail: the match
    stops before the exponent and the value returned is that of the
    mantissa alone; for [FINAL ENERGY: -7.64e+01] it is the float -7.64,
    [-8601875288277647 * 2^-50]. *)
Theorem parse_energy_scientific pre :
  ~ occurs regex pre ->
  (forall sg ip fr e post,
     sign sg -> digits ip -> fraction fr -> too_long ip (tl fr) = false ->
     e = chr "e"%char \/ e = chr "E"%char ->
     parse_energy (pre ++ lit "FINAL ENERGY: " ++ sg ++ ip ++ fr ++ e :: post)
     = Return (literal_value sg ip fr))
  /\ forall post,
       parse_energy (pre ++ lit "FINAL ENERGY: -7.64e+01" ++ post)
       = Return (S754_finite true 8601875288277647 (-50)).
Proof.
  intros Hpre.
  assert (Hgen : forall sg ip fr e post,
             sign sg -> digits ip -> fraction fr ->
             too_long ip (tl fr) = false ->
             e = chr "e"%char \/ e = chr "E"%char ->
             parse_energy
               (pre ++ lit "FINAL ENERGY: " ++ sg ++ ip ++ fr ++ e :: post)
             = Return (literal_value sg ip fr)).
  { intros sg ip fr e post Hsg Hip Hfr Hlen He.
    apply parse_energy_first; trivial.
    unfold continues.
    destruct He as [-> | ->]; simpl; now rewrite andb_false_r. }
  split; [exact Hgen|].
  intros post.
  change (parse_energy
            (pre ++ lit "FINAL ENERGY: " ++ [chr "-"%char] ++ [chr "7"%char]
                 ++ lit ".64" ++ chr "e"%char :: lit "+01" ++ post)
          = Return (S754_finite true 8601875288277647 (-50))).
  rewrite Hgen; trivial.
  - now right.
  - split; [discriminate | reflexivity].
  - right. exists (lit "64"). repeat split. discriminate.
  - now left.
Qed.

(** ** The claims at concrete inputs *)

Lemma parse_energy_first_of_two_run :
  ~ occurs regex (lit "SCF CONVERGED; ")
  /\ starts_decimal (lit " Eh; ") = false
  /\ parse_energy (lit "SCF CONVERGED; " ++ lit "FINAL ENERGY: -1.0"
                     ++ lit " Eh; " ++ lit "FINAL ENERGY: -2.0" ++ lit " Eh")
     = Return (S754_finite true 4503599627370496 (-52)).
Proof.
  assert (H : ~ occurs regex (lit "SCF CONVERGED; "))
    by (apply search_None_iff; reflexivity).
  split; [exact H|]. split; [reflexivity|].
  apply parse_energy_first_of_two; [exact H | reflexivity].
Defined.

(** Against C1 as stated: a text that holds [FINAL ENERGY: -1.0] and,
    later, [FINAL ENERGY: -2.0], and whose value is -1.05, the number the
    first occurrence goes on to; and one whose value is 5.0, that of an
    occurrence of the pattern in front of the two. *)
Lemma parse_energy_first_of_two_other_value :
  (lit "FINAL ENERGY: -1.05 FINAL ENERGY: -2.0"
   = lit "FINAL ENERGY: -1.0" ++ lit "5 " ++ lit "FINAL ENERGY: -2.0"
   /\ parse_energy (lit "FINAL ENERGY: -1.05 FINAL ENERGY: -2.0")
      = Return (S754_finite true 4728779608739021 (-52))
   /\ parse_energy (lit "FINAL ENERGY: -1.05 FINAL ENERGY: -2.0")
      <> Return (S754_finite true 4503599627370496 (-52)))
  /\ (lit "FINAL ENERGY: 5 FINAL ENERGY: -1.0 FINAL ENERGY: -2.0"
      = lit "FINAL ENERGY: 5 " ++ lit "FINAL ENERGY: -1.0" ++ lit " "
          ++ lit "FINAL ENERGY: -2.0"
      /\ parse_energy
           (lit "FINAL ENERGY: 5 FINAL ENERGY: -1.0 FINAL ENERGY: -2.0")
         = Return (S754_finite false 5629499534213120 (-50))
      /\ parse_energy
           (lit "FINAL ENERGY: 5 FINAL ENERGY: -1.0 FINAL ENERGY: -2.0")
         <> Return (S754_finite true 4503599627370496 (-52))).
Proof.
  assert (E1 : parse_energy (lit "FINAL ENERGY: -1.05 FINAL ENERGY: -2.0")
               = Return (S754_finite true 4728779608739021 (-52)))
    by reflexivity.
  assert (E2 : parse_energy
                 (lit "FINAL ENERGY: 5 FINAL ENERGY: -1.0 FINAL ENERGY: -2.0")
               = Return (S754_finite false 5629499534213120 (-50)))
    by reflexivity.
  repeat split; try reflexivity.
  - rewrite E1. discriminate.
  - rewrite E2. discriminate.
Qed.

Lemma parse_energy_anywhere_run :
  ~ occurs regex (lit "Total Energy; ")
  /\ starts_decimal (lit " Eh") = false
  /\ parse_energy (lit "Total Energy; " ++ lit "FINAL ENERGY: -76.404459"
                     ++ lit " Eh")
     = Return (S754_finite true 5376485829403818 (-46)).
Proof.
  assert (H : ~ occurs regex (lit "Total Energy; "))
    by (apply search_None_iff; reflexivity).
  split; [exact H|]. split; [reflexivity|].
  apply parse_energy_anywhere; [exact H | reflexivity].
Defined.

(** Against C2 as stated: a text that holds [FINAL ENERGY: -76.404459]
    and whose value is -76.4044591, because a digit follows; and one whose
    value is 0.0, that of an occurrence of the pattern in front of it. *)
Lemma parse_energy_anywhere_other_value :
  (lit "FINAL ENERGY: -76.4044591"
   = lit "FINAL ENERGY: -76.404459" ++ lit "1"
   /\ parse_energy (lit "FINAL ENERGY: -76.4044591")
      = Return (S754_finite true 5376485836440692 (-46))
   /\ parse_energy (lit "FINAL ENERGY: -76.4044591")
      <> Return (S754_finite true 5376485829403818 (-46)))
  /\ (lit "FINAL ENERGY: 0 FINAL ENERGY: -76.404459"
      = lit "FINAL ENERGY: 0 " ++ lit "FINAL ENERGY: -76.404459"
      /\ parse_energy (lit "FINAL ENERGY: 0 FINAL ENERGY: -76.404459")
         = Return (S754_zero false)
      /\ parse_energy (lit "FINAL ENERGY: 0 FINAL ENERGY: -76.404459")
         <> Return (S754_finite true 5376485829403818 (-46))).
Proof.
  assert (E1 : parse_energy (lit "FINAL ENERGY: -76.4044591")
               = Return (S754_finite true 5376485836440692 (-46)))
    by reflexivity.
  assert (E2 : parse_energy (lit "FINAL ENERGY: 0 FINAL ENERGY: -76.404459")
               = Return (S754_zero false))
    by reflexivity.
  repeat split; try reflexivity.
  - rewrite E1. discriminate.
  - rewrite E2. discriminate.
Qed.

Lemma parse_energy_absent_run :
  ~ occurs regex (lit "ORCA TERMINATED NORMALLY; FINAL ENERGY: n/a")
  /\ parse_energy (lit "ORCA TERMINATED NORMALLY; FINAL ENERGY: n/a")
     = Raise MatchNotFoundError.
Proof.
  assert (H : ~ occurs regex
                (lit "ORCA TERMINATED NORMALLY; FINAL ENERGY: n/a"))
    by (apply search_None_iff; reflexivity).
  split; [exact H|]. exact (proj1 (parse_energy_absent H)).
Defined.

Lemma parse_energy_scientific_run :
  ~ occurs regex (lit "Total Energy; ")
  /\ parse_energy (lit "Total Energy; " ++ lit "FINAL ENERGY: -7.64e+01"
                     ++ lit " Eh")
     = Return (S754_finite true 8601875288277647 (-50)).
Proof.
  assert (H : ~ occurs regex (lit "Total Energy; "))
    by (apply search_None_iff; reflexivity).
  split; [exact H|].
  exact (proj2 (@parse_energy_scientific (lit "Total Energy; ") H)
               (lit " Eh")).
Defined.

(** Against C10 as stated: texts whose energy is written in scientific
    notation and for which [parse_energy] fails, the mantissa beginning
    with a point or with a plus sign; and one whose value is 5.0, that of
    an occurrence of the pattern in front of it. *)
Lemma parse_energy_scientific_fails :
  parse_energy (lit "FINAL ENERGY: -.764e+02") = Raise MatchNotFoundError
  /\ parse_energy (lit "FINAL ENERGY: +7.64e+01") = Raise MatchNotFoundError
  /\ (lit "FINAL ENERGY: 5 FINAL ENERGY: -7.64e+01"
      = lit "FINAL ENERGY: 5 " ++ lit "FINAL ENERGY: -7.64e+01"
      /\ parse_energy (lit "FINAL ENERGY: 5 FINAL ENERGY: -7.64e+01")
         = Return (S754_finite false 5629499534213120 (-50))
      /\ parse_energy (lit "FINAL ENERGY: 5 FINAL ENERGY: -7.64e+01")
         <> Return (S754_finite true 8601875288277647 (-50))).
Proof.
  assert (E : parse_energy (lit "FINAL ENERGY: 5 FINAL ENERGY: -7.64e+01")
              = Return (S754_finite false 5629499534213120 (-50)))
    by reflexivity.
  repeat split; try reflexivity.
  rewrite E. discriminate.
Qed.

Lemma parsing_deterministic_run :
  SFeqb (S754_finite true 4503599627370496 (-52))
        (S754_finite true 4503599627370496 (-52)) = true
  /\ Sample.drain 3 Sample.disk
       (iter_files (Some (lit "out")) (Some (AsStr (lit "calc"))))
     = Sample.drain 3 Sample.bare_disk
         (iter_files (Some (lit "out")) (Some (AsStr (lit "calc")))).
Proof.
  destruct (@parsing_deterministic Sample.Path Sample.Path_of_str
              Sample.str_of_Path (lit "FINAL ENERGY: -1.0")
              Sample.disk Sample.bare_disk
              (Some (lit "out")) (Some (AsStr (lit "calc"))))
    as (H1 & _ & H3).
  - intros d [= <-]. reflexivity.
  - split; [|exact (H3 3)].
    exact (proj2 (H1 _ _ eq_refl eq_refl)).
Defined.

(** Against C8 as stated: two calls of [iter_files] with the same
    arguments, the second after the directory has been made; the first
    ends in [ParserError] with nothing yielded, the second yields the
    directory. *)
Lemma iter_files_same_arguments_differ :
  Sample.drain 3 Sample.blank_disk (iter_files None (Some (AsStr (lit "calc"))))
  = Some ([], Some (ParserError
                      (lit "Directory calc does not exist or is not a directory.")))
  /\ Sample.drain 3 Sample.disk (iter_files None (Some (AsStr (lit "calc"))))
     = Some ([(DIRECTORY, Location (lit "calc"))], None)
  /\ Sample.drain 3 Sample.blank_disk
       (iter_files None (Some (AsStr (lit "calc"))))
     <> Sample.drain 3 Sample.disk
          (iter_files None (Some (AsStr (lit "calc")))).
Proof.
  repeat split. discriminate.
Qed.

Lemma iter_files_ignores_entries_run :
  Sample.disk (lit "calc") = Mode Dir
  /\ Sample.drain 3 Sample.disk
       (iter_files (Some (lit "out")) (Some (AsStr (lit "calc"))))
     = Some ([(STDOUT, Text (lit "out")); (DIRECTORY, Location (lit "calc"))],
             None).
Proof.
  split; [reflexivity|].
  exact (proj1 (@iter_files_ignores_entries Sample.Path Sample.Path_of_str
                  Sample.str_of_Path Sample.disk (Some (lit "out"))
                  (AsStr (lit "calc")) eq_refl)).
Defined.

(** Against C4 as stated: for the directory [calc], which holds the
    file [calc/orca.out], what is yielded is the directory path, which is
    no file inside the directory, and the file inside it is not yielded;
    and for the directory [vault/calc], whose status cannot be read, the
    loop ends in [OSError]. *)
Lemma iter_files_yields_no_file :
  (Sample.disk (lit "calc/orca.out") = Mode Other
   /\ Sample.inside (lit "calc") (lit "calc/orca.out") = true
   /\ Sample.inside (lit "calc") (lit "calc") = false
   /\ Sample.drain 3 Sample.disk (iter_files None (Some (AsStr (lit "calc"))))
      = Some ([(DIRECTORY, Location (lit "calc"))], None))
  /\ Sample.drain 3 Sample.guarded_disk
       (iter_files None (Some (AsStr (lit "vault/calc"))))
     = Some ([], Some (OSError Sample.EACCES)).
Proof. repeat split. Qed.

Lemma iter_files_bad_directory_run :
  no_directory (Sample.disk (lit "calc/orca.out")) = true
  /\ Sample.next Sample.disk (iter_files None (Some (AsStr (lit "calc/orca.out"))))
     = (Raises (not_a_directory Sample.str_of_Path (lit "calc/orca.out")),
        Closed).
Proof.
  split; [reflexivity|].
  exact (proj1 (@iter_files_bad_directory Sample.Path Sample.Path_of_str
                  Sample.str_of_Path Sample.disk
                  (AsStr (lit "calc/orca.out")) eq_refl)).
Defined.

(** Against C3 as stated: console text and a directory that does not
    exist; the first [next] yields the STDOUT artifact, and a loop has
    received it when the [ParserError] ends it.  And a directory that
    does not exist under a name too long for the file system: the error
    is the [OSError] of [stat()], not [ParserError]. *)
Lemma iter_files_yields_before_error :
  (Sample.disk (lit "missing") = Errno ENOENT
   /\ Sample.next Sample.disk
        (iter_files (Some (lit "out")) (Some (AsStr (lit "missing"))))
      = (Yield (STDOUT, Text (lit "out")),
         AtYield50 (Some (AsStr (lit "missing"))))
   /\ Sample.drain 3 Sample.disk
        (iter_files (Some (lit "out")) (Some (AsStr (lit "missing"))))
      = Some ([(STDOUT, Text (lit "out"))],
              Some (ParserError
                      (lit "Directory missing does not exist or is not a directory."))))
  /\ Sample.next Sample.guarded_disk
       (iter_files None (Some (AsStr (repeat (chr "a"%char) 300))))
     = (Raises (OSError Sample.ENAMETOOLONG), Closed).
Proof. repeat split. Qed.

(** * Further properties of the code *)

(** ** More about [parse_energy] *)

Lemma length_FINAL : length (lit "FINAL ENERGY: ") = 14.
Proof. reflexivity. Qed.

(** The start position of a search changes only where a match is said
    to begin. *)
Lemma search_from_group r n : forall s p q,
  option_map (fun m => group m n) (search_from r p s)
  = option_map (fun m => group m n) (search_from r q s).
Proof.
  induction s as [|c s IH]; intros p q; simpl; unfold match_at.
  - destruct (match_here r []) as [[s' caps]|]; [|reflexivity].
    destruct n; reflexivity.
  - destruct (match_here r (c :: s)) as [[s' caps]|]; [|apply IH].
    destruct n; reflexivity.
Qed.

Lemma length_skip_zeros ds : length (skip_zeros ds) <= length ds.
Proof.
  induction ds as [|c ds IH]; simpl; [lia|].
  destruct (is_zero c); simpl; lia.
Qed.

Lemma ndigits_le ip fp : ndigits ip fp <= length ip + length fp.
Proof.
  unfold ndigits.
  pose proof (length_skip_zeros ip) as Hi.
  pose proof (length_skip_zeros fp) as Hf.
  destruct (skip_zeros ip); simpl in *; lia.
Qed.

(** A number too long for [float] has more than [MAX_DIGITS] digits. *)
Lemma too_long_length ip fp :
  too_long ip fp = true ->
  (MAX_DIGITS < N.of_nat (length ip + length fp))%N.
Proof.
  unfold too_long. intros H. pose proof (ndigits_le ip fp) as Hn.
  apply orb_true_iff in H as [H|H]; apply N.ltb_lt in H; lia.
Qed.

(** X1: [parse_energy] raises [MatchNotFoundError] exactly when the text
    nowhere holds [FINAL ENERGY: ] followed by a decimal digit, or by a
    minus sign and a decimal digit.  The only other exception it raises
    is the [ValueError] of [float], and that only for a text of more
    than [MAX_DIGITS] characters; in every other case it returns a
    value. *)
Theorem parse_energy_outcome contents :
  (parse_energy contents = Raise MatchNotFoundError <->
   ~ exists pre sg d rest,
       contents = pre ++ lit "FINAL ENERGY: " ++ sg ++ d :: rest
       /\ sign sg /\ isdecimal d = true)
  /\ (forall e,
        parse_energy contents = Raise e ->
        e = MatchNotFoundError
        \/ (e = ValueError
            /\ (MAX_DIGITS < N.of_nat (length contents))%N)).
Proof.
  destruct (parse_energy_cases contents)
    as [[Hno H]|(pre & sg & ip & fr & rest & Hc & Hpre & Hsg & Hip & Hfr
                 & Hrest & H)].
  - split.
    + split; [|intros _; exact H].
      intros _ (pre & sg & d & rest & -> & Hsg & Hd). apply Hno.
      exists pre, (lit "FINAL ENERGY: " ++ sg ++ [d] ++ []), rest.
      split.
      * rewrite app_nil_r, <- !app_assoc. reflexivity.
      * apply matches_regex; trivial; [|now left].
        split; [discriminate|]. simpl. now rewrite Hd.
    + intros e He. rewrite H in He. injection He as <-. now left.
  - assert (Hocc : exists pre sg d rest,
               contents = pre ++ lit "FINAL ENERGY: " ++ sg ++ d :: rest
               /\ sign sg /\ isdecimal d = true).
    { destruct Hip as [Hne Hip]. destruct ip as [|d ip]; [contradiction|].
      simpl in Hip. apply andb_true_iff in Hip as [Hd _].
      exists pre, sg, d, (ip ++ fr ++ rest). now repeat split. }
    unfold literal_result in H. split.
    + split; [|intros Hno; contradiction].
      intros He. rewrite He in H.
      destruct (too_long ip (tl fr)); discriminate H.
    + intros e He. rewrite He in H.
      destruct (too_long ip (tl fr)) eqn:Hlen; [|discriminate H].
      injection H as ->. right. split; [reflexivity|].
      apply too_long_length in Hlen. subst contents.
      rewrite !length_app.
      assert (length (tl fr) <= length fr) by (destruct fr; simpl; lia).
      lia.
Qed.

(** X2: a value once found stays when text is appended that begins
    neither with a decimal digit nor with a point and a digit: nothing
    behind the first number is read. *)
Theorem parse_energy_append contents post v :
  parse_energy contents = Return v ->
  starts_decimal post = false -> starts_fraction post = false ->
  parse_energy (contents ++ post) = Return v.
Proof.
  intros Hv Hdec Hfrac.
  apply parse_energy_Return in Hv
    as (pre & sg & ip & fr & rest & -> & Hpre & Hsg & Hip & Hfr & Hrest
        & Hlen & ->).
  replace ((pre ++ lit "FINAL ENERGY: " ++ sg ++ ip ++ fr ++ rest) ++ post)
    with (pre ++ lit "FINAL ENERGY: " ++ sg ++ ip ++ fr ++ rest ++ post)
    by now rewrite <- !app_assoc.
  apply parse_energy_first; trivial.
  unfold continues in *. apply orb_false_iff in Hrest as [Hr1 Hr2].
  destruct rest as [|c rest].
  - simpl app. now rewrite Hdec, Hfrac, andb_false_r.
  - simpl in Hr1. simpl app. simpl starts_decimal. rewrite Hr1. simpl.
    destruct fr; [|reflexivity]. simpl in *.
    destruct (c =? _)%N; [|reflexivity]. simpl in *.
    destruct rest as [|x rest]; [exact Hdec | exact Hr2].
Qed.

(** X3: what stands in front of an occurrence of [FINAL ENERGY: ] and
    holds no occurrence of the whole pattern changes nothing: the result,
    a value or the failure, is that of the text from that occurrence on. *)
Theorem parse_energy_skips_prefix pre rest :
  ~ occurs regex pre ->
  parse_energy (pre ++ lit "FINAL ENERGY: " ++ rest)
  = parse_energy (lit "FINAL ENERGY: " ++ rest).
Proof.
  intros Hpre.
  assert (H := search_from_group regex 1 (lit "FINAL ENERGY: " ++ rest)
                 (0 + length pre) 0).
  unfold parse_energy, re_search, search.
  rewrite search_from_first by now apply energy_not_earlier.
  destruct (search_from regex (0 + length pre) _) as [m|],
           (search_from regex 0 (lit "FINAL ENERGY: " ++ rest)) as [m'|];
    try discriminate H; [|reflexivity].
  injection H as H. simpl bind. now rewrite H.
Qed.

(** X4: a point that no digit follows is not part of the number: for
    digits that are not too many for [float], the result is the value of
    the digits in front of the point, the same as for the text cut off
    before the point. *)
Theorem parse_energy_trailing_point pre sg ip rest :
  ~ occurs regex pre -> sign sg -> digits ip ->
  too_long ip [] = false ->
  starts_decimal rest = false ->
  parse_energy (pre ++ lit "FINAL ENERGY: " ++ sg ++ ip ++ chr "."%char :: rest)
  = Return (literal_value sg ip [])
  /\ parse_energy (pre ++ lit "FINAL ENERGY: " ++ sg ++ ip)
     = Return (literal_value sg ip []).
Proof.
  intros Hpre Hsg Hip Hlen Hrest. split.
  - apply (@parse_energy_first pre sg ip [] (chr "."%char :: rest)); trivial.
    now left.
  - rewrite <- (app_nil_r ip) at 1.
    change (ip ++ []) with (ip ++ [] ++ []).
    apply (@parse_energy_first pre sg ip [] []); trivial. now left.
Qed.

(** X5: the float that [parse_energy] returns is never a NaN; it is a
    finite number, a zero or, for a literal too large, an infinity. *)
Theorem parse_energy_not_nan contents v :
  parse_energy contents = Return v -> v <> S754_nan.
Proof.
  intros Hv. apply parse_energy_Return in Hv
    as (pre & sg & ip & fr & rest & _ & _ & _ & _ & _ & _ & _ & ->).
  apply float_of_decimal_signed.
Qed.

(** X6: the sign of the result is the sign written: for a number that
    is not too long for [float], the float returned has its sign bit set
    exactly when the number begins with a minus sign, and a number whose
    digits are all zero gives the zero of that sign, so [-0.0] for
    [FINAL ENERGY: -0.0]. *)
Theorem parse_energy_signbit pre sg ip fr rest :
  ~ occurs regex pre ->
  sign sg -> digits ip -> fraction fr -> continues fr rest = false ->
  too_long ip (tl fr) = false ->
  exists v,
    parse_energy (pre ++ lit "FINAL ENERGY: " ++ sg ++ ip ++ fr ++ rest)
    = Return v
    /\ signbit v = match sg with [] => false | _ :: _ => true end
    /\ (int_digits 0 (ip ++ tl fr) = 0%N ->
        v = S754_zero (match sg with [] => false | _ :: _ => true end)).
Proof.
  intros Hpre Hsg Hip Hfr Hrest Hlen.
  exists (literal_value sg ip fr). split; [|split].
  - now apply parse_energy_first.
  - apply float_of_decimal_signed.
  - intros H0. unfold literal_value. now rewrite H0.
Qed.

(** X8: a text of fewer than fifteen characters, the empty text among
    them, cannot hold the pattern: [parse_energy] raises
    [MatchNotFoundError]. *)
Theorem parse_energy_short contents :
  length contents < 15 -> parse_energy contents = Raise MatchNotFoundError.
Proof.
  intros Hlen. destruct (parse_energy_cases contents)
    as [[_ H]|(pre & sg & ip & fr & rest & -> & _ & _ & [Hne _] & _)];
    [exact H|].
  rewrite !length_app, length_FINAL in Hlen.
  destruct ip; [contradiction|]. simpl in Hlen. lia.
Qed.

(** X11: an occurrence of [FINAL ENERGY: ] that no number follows, no
    digit and no minus sign with a digit, is passed over: the result is
    that of the text behind it. *)
Theorem parse_energy_skips_dead_occurrence u :
  starts_decimal u = false ->
  (forall u', u = chr "-"%char :: u' -> starts_decimal u' = false) ->
  parse_energy (lit "FINAL ENERGY: " ++ u) = parse_energy u.
Proof.
  intros Hd Hm.
  assert (Hnone : forall pre1 pre2,
             lit "FINAL ENERGY: " = pre1 ++ pre2 -> pre2 <> [] ->
             match_here regex (pre2 ++ u) = None).
  { intros pre1 pre2 Hp Hne.
    destruct (match_here regex (pre2 ++ u)) as [[s' caps]|] eqn:E;
      [exfalso|reflexivity].
    apply match_here_energy_inv in E
      as (sg & ip & fr & Heq & _ & Hsg & [Hne' Hip] & _).
    destruct ip as [|d ip]; [contradiction|].
    simpl in Hip. apply andb_true_iff in Hip as [Hdd _].
    destruct pre1 as [|x pre1].
    - simpl in Hp. subst pre2. apply app_inv_head in Heq.
      destruct Hsg as [->| ->]; simpl in Heq; subst u.
      + simpl in Hd. congruence.
      + specialize (Hm _ eq_refl). simpl in Hm. congruence.
    - destruct pre2 as [|h pre2]; [contradiction|].
      assert (Hin : In h (tl (lit "FINAL ENERGY: "))).
      { rewrite Hp. simpl. apply in_or_app. right. now left. }
      injection Heq as -> _.
      simpl in Hin.
      repeat (destruct Hin as [Hin|Hin]; [discriminate Hin|]).
      exact Hin. }
  assert (H := search_from_group regex 1 u
                 (0 + length (lit "FINAL ENERGY: ")) 0).
  unfold parse_energy, re_search, search.
  rewrite search_from_first by exact Hnone.
  destruct (search_from regex (0 + _) u) as [m|],
           (search_from regex 0 u) as [m'|];
    try discriminate H; [|reflexivity].
  injection H as H. simpl bind. now rewrite H.
Qed.

(** ** Digits of any script *)

Lemma decimal_in_lt zeros c v :
  decimal_in zeros c = Some v -> (v < 10)%N.
Proof.
  induction zeros as [|z zeros IH]; simpl; [discriminate|].
  destruct ((z <=? c) && (c <? z + 10))%N eqn:E; [|exact IH].
  apply andb_true_iff in E as [H1 H2].
  apply N.leb_le in H1. apply N.ltb_lt in H2.
  intros [= <-]. lia.
Qed.

Lemma decimal_in_head z zeros c :
  (z <= c < z + 10)%N -> decimal_in (z :: zeros) c = Some (c - z)%N.
Proof.
  intros [H1 H2]. simpl.
  apply N.leb_le in H1. apply N.ltb_lt in H2. now rewrite H1, H2.
Qed.

Lemma decimal_ascii_digit c : decimal (ascii_digit c) = decimal c.
Proof.
  unfold ascii_digit. destruct (decimal c) as [v|] eqn:E; [|exact E].
  apply decimal_in_lt in E.
  unfold decimal, decimal_zeros.
  change (chr "0"%char) with 48%N.
  rewrite decimal_in_head by lia. f_equal. lia.
Qed.

Lemma isdecimal_ascii_digit c : isdecimal (ascii_digit c) = isdecimal c.
Proof. unfold isdecimal. now rewrite decimal_ascii_digit. Qed.

Lemma digits_ascii ds : digits ds -> digits (map ascii_digit ds).
Proof.
  intros [Hne Hds]. split.
  - destruct ds; [contradiction|discriminate].
  - clear Hne. induction ds as [|c ds IH]; [reflexivity|].
    simpl in *. apply andb_true_iff in Hds as [Hc Hds].
    now rewrite isdecimal_ascii_digit, Hc, IH.
Qed.

Lemma int_digits_ascii ds : forall acc,
  int_digits acc (map ascii_digit ds) = int_digits acc ds.
Proof.
  induction ds as [|c ds IH]; intros acc; simpl; [reflexivity|].
  now rewrite decimal_ascii_digit, IH.
Qed.

Lemma skip_zeros_ascii ds :
  skip_zeros (map ascii_digit ds) = map ascii_digit (skip_zeros ds).
Proof.
  induction ds as [|c ds IH]; simpl; [reflexivity|].
  unfold is_zero. rewrite decimal_ascii_digit.
  destruct (match decimal c with Some 0%N => true | _ => false end);
    [exact IH | reflexivity].
Qed.

Lemma too_long_ascii ip fp :
  too_long (map ascii_digit ip) (map ascii_digit fp) = too_long ip fp.
Proof.
  unfold too_long, ndigits. rewrite !skip_zeros_ascii, !length_map.
  destruct (skip_zeros ip); simpl; now rewrite ?length_map.
Qed.

(** X7: the digits of the number are read by their decimal values,
    whatever their script: writing every digit of the number as the ASCII
    digit of the same value gives the same result. *)
Theorem parse_energy_digits_by_value pre sg ip fr rest :
  ~ occurs regex pre ->
  sign sg -> digits ip -> fraction fr -> continues fr rest = false ->
  parse_energy (pre ++ lit "FINAL ENERGY: " ++ sg ++ map ascii_digit ip
                    ++ map ascii_digit fr ++ rest)
  = parse_energy (pre ++ lit "FINAL ENERGY: " ++ sg ++ ip ++ fr ++ rest).
Proof.
  intros Hpre Hsg Hip Hfr Hrest.
  rewrite (@parse_energy_literal pre sg ip fr rest) by trivial.
  assert (Hfr' : fraction (map ascii_digit fr)).
  { destruct Hfr as [->|(fp & -> & Hfp)]; [now left|].
    right. exists (map ascii_digit fp). split; [reflexivity|].
    now apply digits_ascii. }
  rewrite parse_energy_literal; trivial.
  - unfold literal_result, literal_value.
    destruct fr as [|c fr]; cbn [map tl].
    + change (@nil char) with (map ascii_digit []) at 1.
      rewrite too_long_ascii.
      now rewrite !app_nil_r, int_digits_ascii.
    + rewrite too_long_ascii.
      now rewrite <- map_app, int_digits_ascii, length_map.
  - now apply digits_ascii.
  - destruct fr; exact Hrest.
Qed.

(** ** More about [iter_files] *)

Section IterMore.
Variable Path : Type.
Variable Path_of_str : str -> Path.
Variable str_of_Path : Path -> str.

Local Abbreviation fsys := (filesystem Path).
Local Abbreviation next := (Orca.next Path_of_str str_of_Path).
Local Abbreviation drain := (Orca.drain Path_of_str str_of_Path).
Local Abbreviation to_Path := (Orca.to_Path Path_of_str).
Local Abbreviation events := (Further.events Path_of_str str_of_Path).
Local Abbreviation block := (directory_block Path_of_str str_of_Path).

Implicit Types (fs : fsys) (fss : list fsys).

Lemma events_closed fss :
  events fss Closed = map (fun _ => StopIteration) fss.
Proof. induction fss as [|fs fss IH]; simpl; [|rewrite IH]; reflexivity. Qed.

Lemma events_block fs fss (directory : option (pathlike Path)) :
  events fss (snd (block fs directory)) = map (fun _ => StopIteration) fss.
Proof.
  assert (H : snd (block fs directory) = AtYield59
              \/ snd (block fs directory) = Closed).
  { unfold directory_block. destruct directory as [d|]; [|now right].
    destruct (rejected fs _) as [[|]|e]; [now right | now left | now right]. }
  destruct H as [-> | ->]; [|apply events_closed].
  destruct fss as [|fs' fss]; [reflexivity|].
  simpl. now rewrite events_closed.
Qed.

Lemma block_agrees fs fs' (directory : option (pathlike Path)) :
  (forall d, directory = Some d -> fs (to_Path d) = fs' (to_Path d)) ->
  block fs directory = block fs' directory.
Proof.
  intros H. destruct directory as [d|]; [|reflexivity].
  unfold directory_block, rejected, exists_, is_dir.
  now rewrite (H d eq_refl).
Qed.

Lemma map_const_length (A B : Type) (b : B) (l l' : list A) :
  length l = length l' -> map (fun _ => b) l = map (fun _ => b) l'.
Proof.
  revert l'. induction l as [|x l IH]; intros [|y l'] H;
    try discriminate H; [reflexivity|].
  simpl. f_equal. apply IH. now injection H.
Qed.

(** X9: the two arguments are served one after the other and apart: what
    a loop receives for both is what it receives for the console text
    alone, which never ends in an error, followed by what it receives for
    the directory alone, and it ends as the loop for the directory alone:
    without an error, with [ParserError] or with the [OSError] that
    [stat()] let through. *)
Theorem iter_files_composes fs (stdout : option str)
  (directory : option (pathlike Path)) :
  exists l1 l2 e,
    drain 3 fs (iter_files stdout None) = Some (l1, None)
    /\ drain 3 fs (iter_files None directory) = Some (l2, e)
    /\ drain 3 fs (iter_files stdout directory) = Some (l1 ++ l2, e)
    /\ (e = None
        \/ (exists d, directory = Some d
                      /\ e = Some (Orca.not_a_directory str_of_Path (to_Path d)))
        \/ exists errno, e = Some (OSError errno)).
Proof.
  rewrite !drain_iter_files. eexists _, _, _.
  split; [|split; [|split]]; try reflexivity.
  - now rewrite app_nil_r.
  - destruct directory as [d|]; [|now left].
    rewrite rejected_status.
    destruct (fs (to_Path d)) as [[|]|errno|]; eauto.
    destruct (_ignore_error errno); eauto.
Qed.

(** X10: the directory is looked at when the generator reaches it, not
    when [iter_files] is called: of the file systems that successive
    calls of [next] find, only the one of the second call (of the first,
    when there is no console text) matters, and in it only what the
    directory path names. *)
Theorem iter_files_checks_on_resume (stdout : option str)
  (directory : option (pathlike Path)) fss fss' :
  length fss = length fss' ->
  (forall d fs fs',
     directory = Some d ->
     nth_error fss (match stdout with Some _ => 1 | None => 0 end) = Some fs ->
     nth_error fss' (match stdout with Some _ => 1 | None => 0 end) = Some fs' ->
     fs (to_Path d) = fs' (to_Path d)) ->
  events fss (iter_files stdout directory)
  = events fss' (iter_files stdout directory).
Proof.
  intros Hlen Hfs.
  assert (Hblock : forall fs fs' t t',
             length t = length t' ->
             (forall d, directory = Some d -> fs (to_Path d) = fs' (to_Path d)) ->
             fst (block fs directory) :: events t (snd (block fs directory))
             = fst (block fs' directory) :: events t' (snd (block fs' directory))).
  { intros fs fs' t t' Ht H. rewrite !events_block.
    rewrite (@block_agrees fs fs' directory H).
    f_equal. now apply map_const_length. }
  assert (Hstep : forall fs t g,
             Orca.next Path_of_str str_of_Path fs g = block fs directory ->
             events (fs :: t) g
             = fst (block fs directory) :: events t (snd (block fs directory))).
  { intros fs t g Hg. simpl. rewrite Hg.
    now destruct (block fs directory). }
  destruct stdout as [s|].
  - destruct fss as [|fs0 [|fs1 t]], fss' as [|fs0' [|fs1' t']];
      try discriminate Hlen; try reflexivity.
    change (Yield (STDOUT, Text s) :: events (fs1 :: t) (AtYield50 directory)
            = Yield (STDOUT, Text s)
                :: events (fs1' :: t') (AtYield50 directory)).
    f_equal. rewrite !Hstep by reflexivity. apply Hblock.
    + simpl in Hlen. lia.
    + intros d Hd. now apply (Hfs d fs1 fs1').
  - destruct fss as [|fs0 t], fss' as [|fs0' t'];
      try discriminate Hlen; try reflexivity.
    unfold iter_files. rewrite !Hstep by reflexivity. apply Hblock.
    + simpl in Hlen. lia.
    + intros d Hd. now apply (Hfs d fs0 fs0').
Qed.

(** X12: an [OSError] of [stat()] that pathlib does not take for
    absence (permission denied, a name too long) is not turned into
    [ParserError]: the iterator raises it as it is, at the place of the
    check, after the console text if there is one, and yields no
    DIRECTORY artifact. *)
Theorem iter_files_stat_error fs (d : pathlike Path) errno :
  fs (to_Path d) = Errno errno -> _ignore_error errno = false ->
  Orca.next Path_of_str str_of_Path fs (iter_files None (Some d))
  = (Raises (OSError errno), Closed)
  /\ forall stdout,
       drain 3 fs (iter_files stdout (Some d))
       = Some (match stdout with Some s => [(STDOUT, Text s)] | None => [] end,
               Some (OSError errno)).
Proof.
  intros Hd Herr. split.
  - simpl. now apply directory_block_error.
  - intros stdout. rewrite drain_iter_files, rejected_status, Hd, Herr.
    now rewrite app_nil_r.
Qed.

End IterMore.

(** ** The further properties at concrete inputs *)

Lemma parse_energy_append_run :
  parse_energy (lit "FINAL ENERGY: -1.0" ++ lit " Eh")
  = Return (S754_finite true 4503599627370496 (-52)).
Proof.
  apply parse_energy_append; reflexivity.
Defined.

Lemma parse_energy_skips_prefix_run :
  ~ occurs regex (lit "FINAL ENERGY: n/a; ")
  /\ parse_energy (lit "FINAL ENERGY: n/a; " ++ lit "FINAL ENERGY: "
                     ++ lit "-3.5")
     = parse_energy (lit "FINAL ENERGY: " ++ lit "-3.5").
Proof.
  assert (H : ~ occurs regex (lit "FINAL ENERGY: n/a; "))
    by (apply search_None_iff; reflexivity).
  split; [exact H|]. now apply parse_energy_skips_prefix.
Defined.

Lemma parse_energy_trailing_point_run :
  parse_energy (lit "FINAL ENERGY: 12. Eh")
  = Return (S754_finite false 6755399441055744 (-49)).
Proof.
  assert (H : ~ occurs regex []) by (apply search_None_iff; reflexivity).
  refine (proj1 (@parse_energy_trailing_point [] [] (lit "12") (lit " Eh")
                   H (or_introl eq_refl) _ eq_refl eq_refl)).
  split; [discriminate | reflexivity].
Defined.

Lemma parse_energy_not_nan_run :
  parse_energy (lit "FINAL ENERGY: " ++ chr "1"%char :: repeat (chr "0"%char) 400)
  = Return (S754_infinity false)
  /\ S754_infinity false <> S754_nan.
Proof.
  assert (H : parse_energy
                (lit "FINAL ENERGY: " ++ chr "1"%char :: repeat (chr "0"%char) 400)
              = Return (S754_infinity false))
    by (vm_compute; reflexivity).
  split; [exact H | exact (@parse_energy_not_nan _ _ H)].
Defined.

Lemma parse_energy_signbit_run :
  exists v,
    parse_energy (lit "FINAL ENERGY: -0.0") = Return v
    /\ signbit v = true /\ v = S754_zero true.
Proof.
  destruct (@parse_energy_signbit [] [chr "-"%char] [chr "0"%char]
              (lit ".0") [])
    as (v & H1 & H2 & H3).
  - apply search_None_iff; reflexivity.
  - now right.
  - split; [discriminate | reflexivity].
  - right. exists [chr "0"%char]. repeat split. discriminate.
  - reflexivity.
  - reflexivity.
  - exists v. repeat split; [exact H1 | exact H2 | now apply H3].
Defined.

Lemma parse_energy_digits_by_value_run :
  parse_energy (lit "FINAL ENERGY: -1.5")
  = parse_energy (lit "FINAL ENERGY: "
                    ++ [chr "-"%char; 1633%N; chr "."%char; 1637%N]).
Proof.
  apply (@parse_energy_digits_by_value [] [chr "-"%char] [1633%N]
           [chr "."%char; 1637%N] []).
  - apply search_None_iff; reflexivity.
  - now right.
  - split; [discriminate | reflexivity].
  - right. exists [1637%N]. repeat split. discriminate.
  - reflexivity.
Defined.

Lemma parse_energy_short_run :
  parse_energy (lit "FINAL ENERGY: ") = Raise MatchNotFoundError.
Proof.
  apply parse_energy_short. simpl. lia.
Defined.

Lemma iter_files_checks_on_resume_run :
  events Sample.Path_of_str Sample.str_of_Path
    [Sample.blank_disk; Sample.disk; Sample.blank_disk]
    (iter_files (Some (lit "out")) (Some (AsStr (lit "calc"))))
  = events Sample.Path_of_str Sample.str_of_Path
      [Sample.disk; Sample.bare_disk; Sample.disk]
      (iter_files (Some (lit "out")) (Some (AsStr (lit "calc")))).
Proof.
  apply iter_files_checks_on_resume; [reflexivity|].
  intros d fs fs' [= <-] [= <-] [= <-]. reflexivity.
Defined.

Lemma parse_energy_skips_dead_occurrence_run :
  parse_energy (lit "FINAL ENERGY: " ++ lit "n/a; FINAL ENERGY: -2.5")
  = parse_energy (lit "n/a; FINAL ENERGY: -2.5").
Proof.
  apply parse_energy_skips_dead_occurrence; [reflexivity|].
  intros u' Hu. discriminate Hu.
Defined.

Lemma iter_files_stat_error_run :
  Sample.guarded_disk (lit "vault/calc") = Errno Sample.EACCES
  /\ Sample.drain 3 Sample.guarded_disk
       (iter_files (Some (lit "out")) (Some (AsStr (lit "vault/calc"))))
     = Some ([(STDOUT, Text (lit "out"))], Some (OSError Sample.EACCES)).
Proof.
  split; [reflexivity|].
  exact (proj2 (@iter_files_stat_error Sample.Path Sample.Path_of_str
                  Sample.str_of_Path Sample.guarded_disk
                  (AsStr (lit "vault/calc")) Sample.EACCES eq_refl eq_refl)
               (Some (lit "out"))).
Defined.

